(** * Table data operations of the Ignite 3 C++ thin client

    A shallow embedding of
    [modules/platforms/cpp/ignite/client/detail/table/table_impl.cpp]:
    the tuple codec ([claim_column], [append_column], [read_next_column],
    [pack_tuple], [write_tuple], [read_tuple], ...), the schema cache
    ([get_latest_schema_async], [load_schema_async]) and the fifteen public
    data operations of [table_impl].

    C++ exceptions are modelled by the [result] type, mutable objects by
    explicit state passing in a state-and-exception monad.  The collaborators
    that [table_impl.cpp] only includes (record model, binary tuple builder
    and parser, MessagePack reader and writer, cluster connection) are
    modelled at their interface; each such definition says so. *)

From Stdlib Require Import ZArith String Ascii List Bool Lia.
From stdpp Require Import base option list gmap.
Import ListNotations.

#[local] Open Scope Z_scope.

(** ** Errors and the state-and-exception monad *)

(** [ignite_error] as thrown by the code.  The three throw sites of
    [table_impl.cpp] are
    - [TransactionsNotImplemented]: "Transactions are not implemented";
    - [TypeNotSupported id]: "Type with id <id> is not yet supported";
    - [SchemaNotFound]: "Schema not found".
    The others are raised by the collaborators: a record accessor that misses
    the field or finds another type in it, a malformed frame, the table having
    no schema to work with, and an index outside a vector (undefined behaviour
    in C++, at which the model stops).  [LengthError] stands for the
    [std::length_error] of the standard library, which is no [ignite_error]
    but leaves the function in the same way. *)
Inductive ignite_error : Type :=
| TransactionsNotImplemented
| TypeNotSupported (id : Z)
| SchemaNotFound
| FieldNotFound
| TypeMismatch
| ProtocolError
| SchemaUnavailable
| OutOfBounds
| LengthError.

Inductive result (A : Type) : Type :=
| Ok (a : A)
| Throw (e : ignite_error).
Arguments Ok {A} a.
Arguments Throw {A} e.

(** A computation over a mutable object of type [S].  The state is returned
    also when the computation throws: whatever was mutated before the throw
    stays mutated. *)
Definition M (S A : Type) : Type := S -> result A * S.

Definition ret {S A} (a : A) : M S A := fun s => (Ok a, s).
Definition throw {S A} (e : ignite_error) : M S A := fun s => (Throw e, s).
Definition bind {S A B} (c : M S A) (k : A -> M S B) : M S B :=
  fun s => match c s with
           | (Ok a, s') => k a s'
           | (Throw e, s') => (Throw e, s')
           end.
Definition get_state {S} : M S S := fun s => (Ok s, s).
Definition put_state {S} (s : S) : M S unit := fun _ => (Ok tt, s).
Definition modify {S} (f : S -> S) : M S unit := fun s => (Ok tt, f s).
(** A value-level computation used inside a stateful one. *)
Definition lift_result {S A} (r : result A) : M S A := fun s => (r, s).

Notation "x <- c ;; k" := (bind c (fun x => k))
  (at level 100, c at next level, right associativity).
Notation "c ;;; k" := (bind c (fun _ => k))
  (at level 100, right associativity).

(** [for (std::int32_t i = from; i < from + n; ++i) body(i)]. *)
Fixpoint for_loop {S} (n : nat) (i : Z) (body : Z -> M S unit) : M S unit :=
  match n with
  | O => ret tt
  | S n' => body i ;;; for_loop n' (i + 1) body
  end.

(** [v[i]] on a [std::vector]. *)
Definition at_index {S A} (v : list A) (i : Z) : M S A :=
  if i <? 0 then throw OutOfBounds
  else match v !! Z.to_nat i with
       | Some a => ret a
       | None => throw OutOfBounds
       end.

(** ** Machine integers and bytes *)

Definition bytes : Type := list Z.

(** Conversion to [std::int32_t] (two's complement wrap-around). *)
Definition to_int32 (z : Z) : Z := (z + 2 ^ 31) mod 2 ^ 32 - 2 ^ 31.

(** Conversion to [std::size_t], 64 bits wide: a negative [std::int32_t]
    becomes a size of at least [2^64 - 2^31]. *)
Definition to_size_t (z : Z) : Z := z mod 2 ^ 64.

(** The largest size a [std::vector] can be asked to hold.  The library
    bounds [max_size()] by [PTRDIFF_MAX] divided by the size of an element;
    of the sizes a [std::int32_t] converts to, those of the non-negative ones
    are below that bound for elements of up to [2^32] bytes and those of the
    negative ones above [PTRDIFF_MAX] itself, so that the bound used here
    decides them as the library does. *)
Definition vector_max_size : Z := 2 ^ 63 - 1.

(** [res.reserve(n)] on a vector that was just constructed: it throws
    [std::length_error] when [n] exceeds [max_size()] and changes no element
    otherwise.  The allocation itself is taken to succeed. *)
Definition reserve {S} (n : Z) : M S unit :=
  if vector_max_size <? n then throw LengthError else ret tt.

(** Modelled from the spec: [bytes_for_bits] of [ignite/common/bits.h], the
    number of bytes that hold [n] bits, [ceil(n/8)]. *)
Definition bytes_for_bits (n : Z) : Z := (n + 7) / 8.

(** Modelled from the spec: the value encodings of the binary tuple builder
    ([append_int8] ... [append_uuid]) and parser ([get_int8] ... [get_uuid]).
    Integers are two's complement little-endian of their width; FLOAT and
    DOUBLE travel as their IEEE-754 bit patterns, 4 and 8 bytes; a UUID is 16
    bytes, most significant half first, each half big-endian. *)
Fixpoint encode_le (w : nat) (z : Z) : bytes :=
  match w with
  | O => []
  | S w' => (z mod 256) :: encode_le w' (z / 256)
  end.

Fixpoint decode_le (b : bytes) : Z :=
  match b with
  | [] => 0
  | x :: b' => x mod 256 + 256 * decode_le b'
  end.

(** Reading [w] bytes as a signed integer. *)
Definition decode_signed (w : nat) (b : bytes) : Z :=
  let m := 2 ^ (8 * Z.of_nat w) in
  let u := decode_le (firstn w b) mod m in
  if u <? m / 2 then u else u - m.

Definition decode_unsigned (w : nat) (b : bytes) : Z :=
  decode_le (firstn w b) mod 2 ^ (8 * Z.of_nat w).

Definition encode_be (w : nat) (z : Z) : bytes := rev (encode_le w z).
Definition decode_be (w : nat) (b : bytes) : Z := decode_unsigned w (rev (firstn w b)).

Record uuid : Type := mk_uuid { msb : Z; lsb : Z }.

Definition encode_uuid (u : uuid) : bytes := encode_be 8 (msb u) ++ encode_be 8 (lsb u).
Definition decode_uuid (b : bytes) : uuid :=
  mk_uuid (decode_be 8 (firstn 8 b)) (decode_be 8 (skipn 8 b)).

Definition encode_string (s : string) : bytes :=
  map (fun a => Z.of_N (N_of_ascii a)) (list_ascii_of_string s).
Definition decode_string (b : bytes) : string :=
  string_of_list_ascii (map (fun x => ascii_of_N (Z.to_N x)) b).

(** ** Values, columns, schemas *)

(** [ignite_type]; the nine types the codec handles, and every other
    enumerator with its numeric id. *)
Inductive ignite_type : Type :=
| INT8 | INT16 | INT32 | INT64 | FLOAT | DOUBLE | UUID | STRING | BINARY
| OTHER (id : Z).

(** The [std::any] held by a record field.  [VEmpty] is the empty [std::any],
    the value a field has when the tuple carried none.  FLOAT and DOUBLE hold
    the bit pattern of the number. *)
Inductive value : Type :=
| VEmpty
| VInt8 (z : Z)
| VInt16 (z : Z)
| VInt32 (z : Z)
| VInt64 (z : Z)
| VFloat (bits : Z)
| VDouble (bits : Z)
| VUuid (u : uuid)
| VString (s : string)
| VBinary (b : bytes).

Record column : Type := mk_column {
  name : string;
  type : ignite_type;
  nullable : bool;
  is_key : bool
}.

Record schema : Type := mk_schema {
  version : Z;
  key_column_count : Z;
  columns : list column
}.

(** ** The record model *)

(** Modelled from the spec: [ignite_tuple], an ordered sequence of
    (column name, value) pairs with case-insensitive column lookup;
    [column_ordinal] returns -1 on a miss, [tuple_set] inserts or overwrites,
    the accessors fail with [FieldNotFound] on a miss and the typed ones with
    [TypeMismatch] when the field holds another type. *)
Definition ignite_tuple : Type := list (string * value).

Definition upper_ascii (a : ascii) : ascii :=
  let n := N_of_ascii a in
  if ((97 <=? n) && (n <=? 122))%N then ascii_of_N (n - 32) else a.

Fixpoint parse_name (s : string) : string :=
  match s with
  | EmptyString => EmptyString
  | String a s' => String (upper_ascii a) (parse_name s')
  end.

Definition name_eqb (a b : string) : bool := String.eqb (parse_name a) (parse_name b).

Fixpoint find_ordinal (t : ignite_tuple) (n : string) (i : Z) : Z :=
  match t with
  | [] => -1
  | (k, _) :: t' => if name_eqb k n then i else find_ordinal t' n (i + 1)
  end.

(** [ignite_tuple(capacity)]: an empty record. *)
Definition tuple_new (capacity : Z) : ignite_tuple := [].

Definition column_count (t : ignite_tuple) : Z := Z.of_nat (length t).

Definition column_ordinal (t : ignite_tuple) (n : string) : Z := find_ordinal t n 0.

(** [tuple.get(idx)], the [std::any] at an ordinal. *)
Definition tuple_get {S} (t : ignite_tuple) (idx : Z) : M S value :=
  if idx <? 0 then throw FieldNotFound
  else match t !! Z.to_nat idx with
       | Some (_, v) => ret v
       | None => throw FieldNotFound
       end.

(** [tuple.get(name)]. *)
Definition tuple_get_name {S} (t : ignite_tuple) (n : string) : M S value :=
  let idx := column_ordinal t n in
  if idx <? 0 then throw FieldNotFound else tuple_get t idx.

(** [tuple.set(name, value)]. *)
Fixpoint tuple_set (t : ignite_tuple) (n : string) (v : value) : ignite_tuple :=
  match t with
  | [] => [(n, v)]
  | (k, x) :: t' => if name_eqb k n then (k, v) :: t' else (k, x) :: tuple_set t' n v
  end.

(** The typed accessors [tuple.get<T>(idx)]. *)
Definition get_int8 {S} (t : ignite_tuple) (idx : Z) : M S Z :=
  v <- tuple_get t idx ;; match v with VInt8 z => ret z | _ => throw TypeMismatch end.
Definition get_int16 {S} (t : ignite_tuple) (idx : Z) : M S Z :=
  v <- tuple_get t idx ;; match v with VInt16 z => ret z | _ => throw TypeMismatch end.
Definition get_int32 {S} (t : ignite_tuple) (idx : Z) : M S Z :=
  v <- tuple_get t idx ;; match v with VInt32 z => ret z | _ => throw TypeMismatch end.
Definition get_int64 {S} (t : ignite_tuple) (idx : Z) : M S Z :=
  v <- tuple_get t idx ;; match v with VInt64 z => ret z | _ => throw TypeMismatch end.
Definition get_float {S} (t : ignite_tuple) (idx : Z) : M S Z :=
  v <- tuple_get t idx ;; match v with VFloat z => ret z | _ => throw TypeMismatch end.
Definition get_double {S} (t : ignite_tuple) (idx : Z) : M S Z :=
  v <- tuple_get t idx ;; match v with VDouble z => ret z | _ => throw TypeMismatch end.
Definition get_uuid {S} (t : ignite_tuple) (idx : Z) : M S uuid :=
  v <- tuple_get t idx ;; match v with VUuid u => ret u | _ => throw TypeMismatch end.
Definition get_string {S} (t : ignite_tuple) (idx : Z) : M S string :=
  v <- tuple_get t idx ;; match v with VString s => ret s | _ => throw TypeMismatch end.
Definition get_binary {S} (t : ignite_tuple) (idx : Z) : M S bytes :=
  v <- tuple_get t idx ;; match v with VBinary b => ret b | _ => throw TypeMismatch end.

(** ** Binary tuple builder and parser *)

(** Modelled from the spec: the binary tuple is kept at the level of its
    interface, the sequence of field payloads it delimits, a field being
    either absent ([None]) or its encoded bytes.  The builder is two-pass
    (claim the sizes, lay out, append the payloads); the parser is one-pass,
    [get_next] yielding an optional byte view.  A parser built for another
    number of fields than the tuple has cannot find them. *)
Definition binary_tuple : Type := list (option bytes).

Record binary_tuple_builder : Type := mk_builder {
  b_count : Z;
  b_claimed : list (option Z);
  b_elements : list (option bytes)
}.

Definition builder_new (count : Z) : binary_tuple_builder := mk_builder count [] [].
Definition builder_start : M binary_tuple_builder unit :=
  modify (fun b => mk_builder (b_count b) [] []).
Definition builder_layout : M binary_tuple_builder unit := ret tt.
Definition builder_claim (size : option Z) : M binary_tuple_builder unit :=
  modify (fun b => mk_builder (b_count b) (b_claimed b ++ [size]) (b_elements b)).
Definition builder_append (e : option bytes) : M binary_tuple_builder unit :=
  modify (fun b => mk_builder (b_count b) (b_claimed b) (b_elements b ++ [e])).
Definition builder_build : M binary_tuple_builder binary_tuple :=
  b <- get_state ;; ret (b_elements b).

Definition claim_int8 (v : Z) := builder_claim (Some 1).
Definition claim_int16 (v : Z) := builder_claim (Some 2).
Definition claim_int32 (v : Z) := builder_claim (Some 4).
Definition claim_int64 (v : Z) := builder_claim (Some 8).
Definition claim_float (v : Z) := builder_claim (Some 4).
Definition claim_double (v : Z) := builder_claim (Some 8).
Definition claim_uuid (v : uuid) := builder_claim (Some 16).

Definition append_int8 (v : Z) := builder_append (Some (encode_le 1 v)).
Definition append_int16 (v : Z) := builder_append (Some (encode_le 2 v)).
Definition append_int32 (v : Z) := builder_append (Some (encode_le 4 v)).
Definition append_int64 (v : Z) := builder_append (Some (encode_le 8 v)).
Definition append_float (v : Z) := builder_append (Some (encode_le 4 v)).
Definition append_double (v : Z) := builder_append (Some (encode_le 8 v)).
Definition append_uuid (v : uuid) := builder_append (Some (encode_uuid v)).

Record binary_tuple_parser : Type := mk_parser {
  p_count : Z;
  p_index : Z;
  p_data : binary_tuple
}.

Definition parser_new (num_elements : Z) (data : binary_tuple) : binary_tuple_parser :=
  mk_parser num_elements 0 data.

Definition get_next : M binary_tuple_parser (option bytes) := fun p =>
  if (0 <=? p_index p) && (p_index p <? p_count p)
     && (Z.of_nat (length (p_data p)) =? p_count p)
  then match p_data p !! Z.to_nat (p_index p) with
       | Some e => (Ok e, mk_parser (p_count p) (p_index p + 1) (p_data p))
       | None => (Throw ProtocolError, p)
       end
  else (Throw ProtocolError, p).

(** ** No-value bitset *)

(** Modelled from the spec: [protocol::bitset_span], a bit vector over a byte
    buffer, bit [i] living in byte [i / 8] at position [i mod 8].  The buffer
    [write_tuple] allocates is taken as cleared. *)
Definition bitset_span : Type := bytes.

Definition bitset_new (bytes_num : Z) : bitset_span := replicate (Z.to_nat bytes_num) 0.

Definition bitset_set (i : Z) : M bitset_span unit :=
  modify (alter (fun x => Z.lor x (Z.shiftl 1 (i mod 8))) (Z.to_nat (i / 8))).

Definition bitset_test (b : bitset_span) (i : Z) : bool :=
  match b !! Z.to_nat (i / 8) with
  | Some x => Z.testbit x (i mod 8)
  | None => false
  end.

(** ** MessagePack writer and reader *)

(** Modelled from the spec: the primitives of [protocol::writer] and
    [protocol::reader] that the table code consumes.  A frame is the sequence
    of the objects written; the reader consumes it from the front and fails
    with a protocol error on an object of another kind. *)
#[local] Unset Elimination Schemes.
Inductive msgpack_object : Type :=
| ONil
| OBool (b : bool)
| OInt (z : Z)
| OStr (s : string)
| OArray (l : list msgpack_object).
#[local] Set Elimination Schemes.

Record msgpack_object_kv : Type := mk_kv {
  kv_key : msgpack_object;
  kv_val : msgpack_object
}.

Inductive msg_item : Type :=
| MUuid (u : uuid)
| MNil
| MInt32 (z : Z)
| MBool (b : bool)
| MBitset (b : bytes)
| MBinary (t : binary_tuple)
| MMap (entries : list msgpack_object_kv).

Definition writer : Type := list msg_item.
Definition reader : Type := list msg_item.

Definition write (x : msg_item) : M writer unit := modify (fun w => w ++ [x]).
Definition write_nil : M writer unit := write MNil.
Definition write_bitset (b : bytes) : M writer unit := write (MBitset b).
Definition write_binary (t : binary_tuple) : M writer unit := write (MBinary t).

Definition read_int32 : M reader Z := fun rd =>
  match rd with
  | MInt32 z :: rd' => (Ok z, rd')
  | _ => (Throw ProtocolError, rd)
  end.

Definition read_bool : M reader bool := fun rd =>
  match rd with
  | MBool b :: rd' => (Ok b, rd')
  | _ => (Throw ProtocolError, rd)
  end.

Definition read_binary : M reader binary_tuple := fun rd =>
  match rd with
  | MBinary t :: rd' => (Ok t, rd')
  | _ => (Throw ProtocolError, rd)
  end.

(** The size of the map the reader stands on; the map is not consumed. *)
Definition read_map_size : M reader Z := fun rd =>
  match rd with
  | MMap entries :: _ => (Ok (Z.of_nat (length entries)), rd)
  | _ => (Throw ProtocolError, rd)
  end.

(** [read_map_raw(handler)] consumes the map and runs the handler on every
    entry, in order; it yields here the entries the handler is run on. *)
Definition read_map_raw : M reader (list msgpack_object_kv) := fun rd =>
  match rd with
  | MMap entries :: rd' => (Ok entries, rd')
  | _ => (Throw ProtocolError, rd)
  end.

(** ** The tuple codec of [table_impl.cpp] *)

Definition claim_column (typ : ignite_type) (index : Z) (tuple : ignite_tuple)
  : M binary_tuple_builder unit :=
  match typ with
  | INT8 => v <- get_int8 tuple index ;; claim_int8 v
  | INT16 => v <- get_int16 tuple index ;; claim_int16 v
  | INT32 => v <- get_int32 tuple index ;; claim_int32 v
  | INT64 => v <- get_int64 tuple index ;; claim_int64 v
  | FLOAT => v <- get_float tuple index ;; claim_float v
  | DOUBLE => v <- get_double tuple index ;; claim_double v
  | UUID => v <- get_uuid tuple index ;; claim_uuid v
  | STRING =>
      s <- get_string tuple index ;;
      builder_claim (Some (Z.of_nat (length (encode_string s))))
  | BINARY =>
      b <- get_binary tuple index ;;
      builder_claim (Some (Z.of_nat (length b)))
  | OTHER id => throw (TypeNotSupported id)
  end.

Definition append_column (typ : ignite_type) (index : Z) (tuple : ignite_tuple)
  : M binary_tuple_builder unit :=
  match typ with
  | INT8 => v <- get_int8 tuple index ;; append_int8 v
  | INT16 => v <- get_int16 tuple index ;; append_int16 v
  | INT32 => v <- get_int32 tuple index ;; append_int32 v
  | INT64 => v <- get_int64 tuple index ;; append_int64 v
  | FLOAT => v <- get_float tuple index ;; append_float v
  | DOUBLE => v <- get_double tuple index ;; append_double v
  | UUID => v <- get_uuid tuple index ;; append_uuid v
  | STRING =>
      str <- get_string tuple index ;;
      builder_append (Some (encode_string str))
  | BINARY =>
      b <- get_binary tuple index ;;
      builder_append (Some b)
  | OTHER id => throw (TypeNotSupported id)
  end.

Definition read_next_column (typ : ignite_type) : M binary_tuple_parser value :=
  val_opt <- get_next ;;
  match val_opt with
  | None => ret VEmpty
  | Some val =>
      match typ with
      | INT8 => ret (VInt8 (decode_signed 1 val))
      | INT16 => ret (VInt16 (decode_signed 2 val))
      | INT32 => ret (VInt32 (decode_signed 4 val))
      | INT64 => ret (VInt64 (decode_signed 8 val))
      | FLOAT => ret (VFloat (decode_unsigned 4 val))
      | DOUBLE => ret (VDouble (decode_unsigned 8 val))
      | UUID => ret (VUuid (decode_uuid val))
      | STRING => ret (VString (decode_string val))
      | BINARY => ret (VBinary val)
      | OTHER id => throw (TypeNotSupported id)
      end
  end.

(** A transaction handle; [transaction *tx] is [None] for [nullptr]. *)
Inductive transaction : Type := Transaction (handle : Z).

Definition transactions_not_implemented {S} (tx : option transaction) : M S unit :=
  match tx with
  | Some _ => throw TransactionsNotImplemented
  | None => ret tt
  end.

(** Running a computation on one component of a pair of objects. *)
Definition on_fst {S T A} (c : M S A) : M (S * T) A :=
  fun st => let '(r, s') := c (fst st) in (r, (s', snd st)).
Definition on_snd {S T A} (c : M T A) : M (S * T) A :=
  fun st => let '(r, t') := c (snd st) in (r, (fst st, t')).

(** The number of columns a tuple is written or read with. *)
Definition tuple_count (sch : schema) (key_only : bool) : Z :=
  to_int32 (if key_only then key_column_count sch else Z.of_nat (length (columns sch))).

(** [pack_tuple]: the builder is local, the no-value bitset is the caller's. *)
Definition pack_tuple (sch : schema) (tuple : ignite_tuple) (key_only : bool)
  : M bitset_span binary_tuple := fun no_value =>
  let count := tuple_count sch key_only in
  let run : M (binary_tuple_builder * bitset_span) binary_tuple :=
    on_fst builder_start ;;;
    for_loop (Z.to_nat count) 0 (fun i =>
      col <- at_index (columns sch) i ;;
      let col_idx := column_ordinal tuple (name col) in
      if 0 <=? col_idx
      then on_fst (claim_column (type col) col_idx tuple)
      else on_fst (builder_claim None)) ;;;
    on_fst builder_layout ;;;
    for_loop (Z.to_nat count) 0 (fun i =>
      col <- at_index (columns sch) i ;;
      let col_idx := column_ordinal tuple (name col) in
      if 0 <=? col_idx
      then on_fst (append_column (type col) col_idx tuple)
      else on_fst (builder_append None) ;;; on_snd (bitset_set i)) ;;;
    on_fst builder_build in
  let '(r, (_, no_value')) := run (builder_new count, no_value) in
  (r, no_value').

Definition write_tuple (sch : schema) (tuple : ignite_tuple) (key_only : bool)
  : M writer unit := fun w =>
  let count := if key_only then key_column_count sch else Z.of_nat (length (columns sch)) in
  let bytes_num := bytes_for_bits count in
  let no_value := bitset_new bytes_num in
  match pack_tuple sch tuple key_only no_value with
  | (Ok tuple_data, no_value') =>
      (write_bitset no_value' ;;; write_binary tuple_data) w
  | (Throw e, _) => (Throw e, w)
  end.

Fixpoint for_each {S A} (l : list A) (body : A -> M S unit) : M S unit :=
  match l with
  | [] => ret tt
  | a :: l' => body a ;;; for_each l' body
  end.

Definition write_tuples (sch : schema) (tuples : list ignite_tuple) (key_only : bool)
  : M writer unit :=
  write (MInt32 (to_int32 (Z.of_nat (length tuples)))) ;;;
  for_each tuples (fun tuple => write_tuple sch tuple key_only).

Definition write_table_operation_header (id : uuid) (sch : schema) : M writer unit :=
  write (MUuid id) ;;;
  write_nil ;;;
  write (MInt32 (version sch)).

(** The overload [read_tuple(reader, sch, key)], which takes the key columns
    from the key record.  The loop runs on the record being filled and the
    parser. *)
Definition read_tuple_key (sch : schema) (key : ignite_tuple) : M reader ignite_tuple :=
  tuple_data <- read_binary ;;
  let columns_cnt := to_int32 (Z.of_nat (length (columns sch))) in
  let res := tuple_new columns_cnt in
  let parser := parser_new (columns_cnt - key_column_count sch) tuple_data in
  fun rd =>
    let '(r, (res', _)) :=
      for_loop (Z.to_nat columns_cnt) 0 (fun i =>
        column <- at_index (columns sch) i ;;
        if i <? key_column_count sch
        then v <- tuple_get_name key (name column) ;;
             on_fst (modify (fun res => tuple_set res (name column) v))
        else v <- on_snd (read_next_column (type column)) ;;
             on_fst (modify (fun res => tuple_set res (name column) v)))
        (res, parser) in
    match r with
    | Ok _ => (Ok res', rd)
    | Throw e => (Throw e, rd)
    end.

(** The overload [read_tuple(reader, sch, key_only)]. *)
Definition read_tuple (sch : schema) (key_only : bool) : M reader ignite_tuple :=
  tuple_data <- read_binary ;;
  let columns_cnt := tuple_count sch key_only in
  let res := tuple_new columns_cnt in
  let parser := parser_new columns_cnt tuple_data in
  fun rd =>
    let '(r, (res', _)) :=
      for_loop (Z.to_nat columns_cnt) 0 (fun i =>
        column <- at_index (columns sch) i ;;
        v <- on_snd (read_next_column (type column)) ;;
        on_fst (modify (fun res => tuple_set res (name column) v)))
        (res, parser) in
    match r with
    | Ok _ => (Ok res', rd)
    | Throw e => (Throw e, rd)
    end.

(** [for (i = 0; i < count; ++i) res.emplace_back(item())]. *)
Fixpoint collect {S A} (n : nat) (item : M S A) : M S (list A) :=
  match n with
  | O => ret []
  | S n' => a <- item ;; l <- collect n' item ;; ret (a :: l)
  end.

Definition read_tuples_opt (sch : option schema) (key_only : bool)
  : M reader (list (option ignite_tuple)) :=
  match sch with
  | None => ret []
  | Some sch =>
      count <- read_int32 ;;
      reserve (to_size_t count) ;;;
      collect (Z.to_nat count)
        (exists_ <- read_bool ;;
         if negb exists_ then ret None
         else t <- read_tuple sch key_only ;; ret (Some t))
  end.

Definition read_tuples (sch : option schema) (key_only : bool)
  : M reader (list ignite_tuple) :=
  match sch with
  | None => ret []
  | Some sch =>
      count <- read_int32 ;;
      reserve (to_size_t count) ;;;
      collect (Z.to_nat count) (read_tuple sch key_only)
  end.

(** ** The table handle, the connection and the callbacks *)

(** [table_impl]: the table id and the schema cache, [m_schemas] from version
    to [std::shared_ptr<schema>] ([None] is the null pointer) and
    [m_latest_schema_version], initially -1. *)
Record table_impl : Type := mk_table {
  m_id : uuid;
  m_schemas : gmap Z (option schema);
  m_latest_schema_version : Z
}.

Definition table_new (id : uuid) : table_impl := mk_table id ∅ (-1).

(** [m_schemas[v]]: [operator[]] of the map, which inserts a null pointer for
    a version it does not hold. *)
Definition schemas_index (v : Z) : M table_impl (option schema) := fun t =>
  match m_schemas t !! v with
  | Some p => (Ok p, t)
  | None => (Ok None, mk_table (m_id t) (<[v := None]> (m_schemas t)) (m_latest_schema_version t))
  end.

(** Modelled from the spec: [table_impl::add_schema] of [table_impl.h], which
    inserts the schema under its version and raises [m_latest_schema_version]
    to it, never lowering it. *)
Definition add_schema (val : schema) : M table_impl unit :=
  modify (fun t =>
    mk_table (m_id t)
      (<[version val := Some val]> (m_schemas t))
      (if m_latest_schema_version t <? version val
       then version val else m_latest_schema_version t)).

Inductive client_operation : Type :=
| SCHEMAS_GET
| TUPLE_UPSERT | TUPLE_GET | TUPLE_UPSERT_ALL | TUPLE_GET_ALL | TUPLE_GET_AND_UPSERT
| TUPLE_INSERT | TUPLE_INSERT_ALL | TUPLE_REPLACE | TUPLE_REPLACE_EXACT
| TUPLE_GET_AND_REPLACE | TUPLE_DELETE | TUPLE_DELETE_ALL | TUPLE_DELETE_EXACT
| TUPLE_DELETE_ALL_EXACT | TUPLE_GET_AND_DELETE.

(** What an [ignite_result<T>] carries, over the result types [T] in use. *)
Inductive payload : Type :=
| PVoid
| PBool (b : bool)
| POptTuple (t : option ignite_tuple)
| PTuples (ts : list ignite_tuple)
| POptTuples (ts : list (option ignite_tuple))
| PSchema (s : option schema).

Definition ignite_result : Type := result payload.

(** The closure each public operation hands to [with_latest_schema_async],
    with what it captures. *)
Inductive operation_body : Type :=
| GetBody (key : ignite_tuple)
| GetAllBody (keys : list ignite_tuple)
| UpsertBody (record : ignite_tuple)
| UpsertAllBody (records : list ignite_tuple)
| GetAndUpsertBody (record : ignite_tuple)
| InsertBody (record : ignite_tuple)
| InsertAllBody (records : list ignite_tuple)
| ReplaceBody (record : ignite_tuple)
| ReplaceExactBody (record new_record : ignite_tuple)
| GetAndReplaceBody (record : ignite_tuple)
| RemoveBody (record : ignite_tuple)
| RemoveExactBody (record : ignite_tuple)
| GetAndRemoveBody (record : ignite_tuple)
| RemoveAllBody (keys : list ignite_tuple)
| RemoveAllExactBody (records : list ignite_tuple).

(** An [ignite_callback<T>]: the callback of the user, known by an id and
    observed through the results it is invoked with, or the closure of
    [with_latest_schema_async] waiting for the schema. *)
Inductive ignite_callback : Type :=
| UserCallback (id : nat)
| WithLatestSchema (handler : ignite_callback) (body : operation_body).

(** A reader closure runs on the response with the table at hand. *)
Definition reader_func : Type := M (table_impl * reader) payload.

Record response_handler : Type := mk_handler {
  h_read : reader_func;
  h_callback : ignite_callback
}.

(** Modelled from the spec: the cluster connection, seen as by a mock: the
    frames sent and the handlers of the requests in flight.  [w_calls] records
    every invocation of a user callback. *)
Record world : Type := mk_world {
  w_table : table_impl;
  w_sent : list (client_operation * writer);
  w_pending : list response_handler;
  w_calls : list (nat * ignite_result)
}.

Definition on_table {A} (c : M table_impl A) : M world A := fun w =>
  let '(r, t') := c (w_table w) in
  (r, mk_world t' (w_sent w) (w_pending w) (w_calls w)).

(** Modelled from the spec: [perform_request(op, write_fn, read_fn, cb)].  The
    writer closure runs at once; when it throws nothing is sent and the
    exception reaches the caller. *)
Definition perform_request (op : client_operation) (wr : M writer unit)
    (rd : reader_func) (callback : ignite_callback) : M world unit := fun w =>
  match wr [] with
  | (Ok _, frame) =>
      (Ok tt, mk_world (w_table w) (w_sent w ++ [(op, frame)])
                (w_pending w ++ [mk_handler rd callback]) (w_calls w))
  | (Throw e, _) => (Throw e, w)
  end.

(** Modelled from the spec: [perform_request_wr], for a response without
    payload. *)
Definition perform_request_wr (op : client_operation) (wr : M writer unit)
    (callback : ignite_callback) : M world unit :=
  perform_request op wr (ret PVoid) callback.

(** ** Schema resolution and the public operations *)

Section table_impl.

(** [schema::read] and [table_impl::get_schema(reader)] are declared outside
    [table_impl.cpp]; the operations are modelled over any such pair.
    [get_schema] resolves the schema reference a response starts with, to a
    schema or to the null pointer. *)
Variable schema_read : msgpack_object_kv -> result schema.
Variable get_schema : M (table_impl * reader) (option schema).

(** *** Writer and reader closures of the operations *)

Definition get_writer_func (self : table_impl) (key : ignite_tuple) (sch : schema)
  : M writer unit :=
  write_table_operation_header (m_id self) sch ;;;
  write_tuple sch key true.

Definition get_reader_func (key : ignite_tuple) : reader_func :=
  sch <- get_schema ;;
  match sch with
  | None => ret (POptTuple None)
  | Some sch => t <- on_snd (read_tuple_key sch key) ;; ret (POptTuple (Some t))
  end.

Definition get_all_writer_func (self : table_impl) (keys : list ignite_tuple)
    (sch : schema) : M writer unit :=
  write_table_operation_header (m_id self) sch ;;;
  write_tuples sch keys true.

Definition get_all_reader_func : reader_func :=
  sch <- get_schema ;;
  ts <- on_snd (read_tuples_opt sch false) ;;
  ret (POptTuples ts).

Definition upsert_writer_func (self : table_impl) (record : ignite_tuple)
    (sch : schema) : M writer unit :=
  write_table_operation_header (m_id self) sch ;;;
  write_tuple sch record false.

Definition upsert_all_writer_func (self : table_impl) (records : list ignite_tuple)
    (sch : schema) : M writer unit :=
  write_table_operation_header (m_id self) sch ;;;
  write_tuples sch records false.

Definition get_and_upsert_writer_func (self : table_impl) (record : ignite_tuple)
    (sch : schema) : M writer unit :=
  write_table_operation_header (m_id self) sch ;;;
  write_tuple sch record false.

Definition get_and_upsert_reader_func (record : ignite_tuple) : reader_func :=
  sch <- get_schema ;;
  match sch with
  | None => ret (POptTuple None)
  | Some sch => t <- on_snd (read_tuple_key sch record) ;; ret (POptTuple (Some t))
  end.

Definition insert_writer_func (self : table_impl) (record : ignite_tuple)
    (sch : schema) : M writer unit :=
  write_table_operation_header (m_id self) sch ;;;
  write_tuple sch record false.

(** [[](protocol::reader &reader) -> bool { return reader.read_bool(); }],
    the reader of insert, replace, remove and their exact variants. *)
Definition bool_reader_func : reader_func :=
  b <- on_snd read_bool ;; ret (PBool b).

Definition insert_all_writer_func (self : table_impl) (records : list ignite_tuple)
    (sch : schema) : M writer unit :=
  write_table_operation_header (m_id self) sch ;;;
  write_tuples sch records false.

Definition insert_all_reader_func : reader_func :=
  sch <- get_schema ;;
  ts <- on_snd (read_tuples sch false) ;;
  ret (PTuples ts).

Definition replace_writer_func (self : table_impl) (record : ignite_tuple)
    (sch : schema) : M writer unit :=
  write_table_operation_header (m_id self) sch ;;;
  write_tuple sch record false.

Definition replace_exact_writer_func (self : table_impl)
    (record new_record : ignite_tuple) (sch : schema) : M writer unit :=
  write_table_operation_header (m_id self) sch ;;;
  write_tuple sch record false ;;;
  write_tuple sch new_record false.

Definition get_and_replace_writer_func (self : table_impl) (record : ignite_tuple)
    (sch : schema) : M writer unit :=
  write_table_operation_header (m_id self) sch ;;;
  write_tuple sch record false.

Definition get_and_replace_reader_func (record : ignite_tuple) : reader_func :=
  sch <- get_schema ;;
  match sch with
  | None => ret (POptTuple None)
  | Some sch => t <- on_snd (read_tuple_key sch record) ;; ret (POptTuple (Some t))
  end.

Definition remove_writer_func (self : table_impl) (record : ignite_tuple)
    (sch : schema) : M writer unit :=
  write_table_operation_header (m_id self) sch ;;;
  write_tuple sch record true.

Definition remove_exact_writer_func (self : table_impl) (record : ignite_tuple)
    (sch : schema) : M writer unit :=
  write_table_operation_header (m_id self) sch ;;;
  write_tuple sch record false.

Definition get_and_remove_writer_func (self : table_impl) (record : ignite_tuple)
    (sch : schema) : M writer unit :=
  write_table_operation_header (m_id self) sch ;;;
  write_tuple sch record true.

Definition get_and_remove_reader_func (record : ignite_tuple) : reader_func :=
  sch <- get_schema ;;
  match sch with
  | None => ret (POptTuple None)
  | Some sch => t <- on_snd (read_tuple_key sch record) ;; ret (POptTuple (Some t))
  end.

Definition remove_all_writer_func (self : table_impl) (keys : list ignite_tuple)
    (sch : schema) : M writer unit :=
  write_table_operation_header (m_id self) sch ;;;
  write_tuples sch keys true.

Definition remove_all_reader_func : reader_func :=
  sch <- get_schema ;;
  ts <- on_snd (read_tuples sch true) ;;
  ret (PTuples ts).

Definition remove_all_exact_writer_func (self : table_impl)
    (records : list ignite_tuple) (sch : schema) : M writer unit :=
  write_table_operation_header (m_id self) sch ;;;
  write_tuples sch records false.

Definition remove_all_exact_reader_func : reader_func :=
  sch <- get_schema ;;
  ts <- on_snd (read_tuples sch false) ;;
  ret (PTuples ts).

(** The closure of each operation, run on the latest schema:
    [(const schema &sch, auto callback) { ... perform_request ... }]. *)
Definition run_body (body : operation_body) (sch : schema) (callback : ignite_callback)
  : M world unit :=
  w <- get_state ;;
  let self := w_table w in
  match body with
  | GetBody key =>
      perform_request TUPLE_GET (get_writer_func self key sch)
        (get_reader_func key) callback
  | GetAllBody keys =>
      perform_request TUPLE_GET_ALL (get_all_writer_func self keys sch)
        get_all_reader_func callback
  | UpsertBody record =>
      perform_request_wr TUPLE_UPSERT (upsert_writer_func self record sch) callback
  | UpsertAllBody records =>
      perform_request_wr TUPLE_UPSERT_ALL (upsert_all_writer_func self records sch)
        callback
  | GetAndUpsertBody record =>
      perform_request TUPLE_GET_AND_UPSERT (get_and_upsert_writer_func self record sch)
        (get_and_upsert_reader_func record) callback
  | InsertBody record =>
      perform_request TUPLE_INSERT (insert_writer_func self record sch)
        bool_reader_func callback
  | InsertAllBody records =>
      perform_request TUPLE_INSERT_ALL (insert_all_writer_func self records sch)
        insert_all_reader_func callback
  | ReplaceBody record =>
      perform_request TUPLE_REPLACE (replace_writer_func self record sch)
        bool_reader_func callback
  | ReplaceExactBody record new_record =>
      perform_request TUPLE_REPLACE_EXACT
        (replace_exact_writer_func self record new_record sch)
        bool_reader_func callback
  | GetAndReplaceBody record =>
      perform_request TUPLE_GET_AND_REPLACE
        (get_and_replace_writer_func self record sch)
        (get_and_replace_reader_func record) callback
  | RemoveBody record =>
      perform_request TUPLE_DELETE (remove_writer_func self record sch)
        bool_reader_func callback
  | RemoveExactBody record =>
      perform_request TUPLE_DELETE_EXACT (remove_exact_writer_func self record sch)
        bool_reader_func callback
  | GetAndRemoveBody record =>
      perform_request TUPLE_GET_AND_DELETE
        (get_and_remove_writer_func self record sch)
        (get_and_remove_reader_func record) callback
  | RemoveAllBody keys =>
      perform_request TUPLE_DELETE_ALL (remove_all_writer_func self keys sch)
        remove_all_reader_func callback
  | RemoveAllExactBody records =>
      perform_request TUPLE_DELETE_ALL_EXACT
        (remove_all_exact_writer_func self records sch)
        remove_all_exact_reader_func callback
  end.

(** Invoking a callback with a result.  The closure of
    [with_latest_schema_async] is modelled from the spec: on a failure it
    hands the error to the handler of the user, otherwise it runs the body
    on the schema; a null schema pointer is a failure. *)
Fixpoint invoke (callback : ignite_callback) (res : ignite_result) : M world unit :=
  match callback with
  | UserCallback id =>
      modify (fun w =>
        mk_world (w_table w) (w_sent w) (w_pending w) (w_calls w ++ [(id, res)]))
  | WithLatestSchema handler body =>
      match res with
      | Throw e => invoke handler (Throw e)
      | Ok (PSchema (Some sch)) => run_body body sch handler
      | Ok _ => invoke handler (Throw SchemaUnavailable)
      end
  end.

(** The connection delivering the response of a request in flight: the
    reader closure decodes it, and the callback gets the value or the
    exception of the reader. *)
Definition process_response (h : response_handler) (response : reader)
  : M world unit := fun w =>
  let '(res, (t', _)) := h_read h (w_table w, response) in
  invoke (h_callback h) res (mk_world t' (w_sent w) (w_pending w) (w_calls w)).

(** *** [load_schema_async] and [get_latest_schema_async] *)

Definition load_schema_writer_func (self : table_impl) : M writer unit :=
  write (MUuid (m_id self)) ;;;
  write_nil.

(** The handler given to [read_map_raw], run on the entries in order:
    [last = schema::read(object); table->add_schema(last);]. *)
Fixpoint read_schemas (entries : list msgpack_object_kv) (last : option schema)
  : M (table_impl * reader) (option schema) :=
  match entries with
  | [] => ret last
  | object :: entries' =>
      s <- lift_result (schema_read object) ;;
      on_fst (add_schema s) ;;;
      read_schemas entries' (Some s)
  end.

Definition load_schema_reader_func : reader_func :=
  schema_cnt <- on_snd read_map_size ;;
  if schema_cnt =? 0 then throw SchemaNotFound
  else
    entries <- on_snd read_map_raw ;;
    last <- read_schemas entries None ;;
    ret (PSchema last).

Definition load_schema_async (callback : ignite_callback) : M world unit :=
  w <- get_state ;;
  perform_request SCHEMAS_GET (load_schema_writer_func (w_table w))
    load_schema_reader_func callback.

Definition get_latest_schema_async (callback : ignite_callback) : M world unit :=
  w <- get_state ;;
  let latest_schema_version := m_latest_schema_version (w_table w) in
  if 0 <=? latest_schema_version
  then
    schema <- on_table (schemas_index latest_schema_version) ;;
    invoke callback (Ok (PSchema schema))
  else load_schema_async callback.

(** Modelled from the spec: [with_latest_schema_async(handler, body)] of
    [table_impl.h]. *)
Definition with_latest_schema_async (handler : ignite_callback) (body : operation_body)
  : M world unit :=
  get_latest_schema_async (WithLatestSchema handler body).

(** *** The public operations *)

Definition get_async (tx : option transaction) (key : ignite_tuple)
    (callback : ignite_callback) : M world unit :=
  transactions_not_implemented tx ;;;
  with_latest_schema_async callback (GetBody key).

Definition get_all_async (tx : option transaction) (keys : list ignite_tuple)
    (callback : ignite_callback) : M world unit :=
  transactions_not_implemented tx ;;;
  with_latest_schema_async callback (GetAllBody keys).

Definition upsert_async (tx : option transaction) (record : ignite_tuple)
    (callback : ignite_callback) : M world unit :=
  transactions_not_implemented tx ;;;
  with_latest_schema_async callback (UpsertBody record).

Definition upsert_all_async (tx : option transaction) (records : list ignite_tuple)
    (callback : ignite_callback) : M world unit :=
  transactions_not_implemented tx ;;;
  with_latest_schema_async callback (UpsertAllBody records).

Definition get_and_upsert_async (tx : option transaction) (record : ignite_tuple)
    (callback : ignite_callback) : M world unit :=
  transactions_not_implemented tx ;;;
  with_latest_schema_async callback (GetAndUpsertBody record).

Definition insert_async (tx : option transaction) (record : ignite_tuple)
    (callback : ignite_callback) : M world unit :=
  transactions_not_implemented tx ;;;
  with_latest_schema_async callback (InsertBody record).

Definition insert_all_async (tx : option transaction) (records : list ignite_tuple)
    (callback : ignite_callback) : M world unit :=
  transactions_not_implemented tx ;;;
  with_latest_schema_async callback (InsertAllBody records).

Definition replace_async (tx : option transaction) (record : ignite_tuple)
    (callback : ignite_callback) : M world unit :=
  transactions_not_implemented tx ;;;
  with_latest_schema_async callback (ReplaceBody record).

(** The overload [replace_async(tx, record, new_record, callback)]. *)
Definition replace_exact_async (tx : option transaction)
    (record new_record : ignite_tuple) (callback : ignite_callback) : M world unit :=
  transactions_not_implemented tx ;;;
  with_latest_schema_async callback (ReplaceExactBody record new_record).

Definition get_and_replace_async (tx : option transaction) (record : ignite_tuple)
    (callback : ignite_callback) : M world unit :=
  transactions_not_implemented tx ;;;
  with_latest_schema_async callback (GetAndReplaceBody record).

Definition remove_async (tx : option transaction) (key : ignite_tuple)
    (callback : ignite_callback) : M world unit :=
  transactions_not_implemented tx ;;;
  with_latest_schema_async callback (RemoveBody key).

Definition remove_exact_async (tx : option transaction) (record : ignite_tuple)
    (callback : ignite_callback) : M world unit :=
  transactions_not_implemented tx ;;;
  with_latest_schema_async callback (RemoveExactBody record).

Definition get_and_remove_async (tx : option transaction) (key : ignite_tuple)
    (callback : ignite_callback) : M world unit :=
  transactions_not_implemented tx ;;;
  with_latest_schema_async callback (GetAndRemoveBody key).

Definition remove_all_async (tx : option transaction) (keys : list ignite_tuple)
    (callback : ignite_callback) : M world unit :=
  transactions_not_implemented tx ;;;
  with_latest_schema_async callback (RemoveAllBody keys).

Definition remove_all_exact_async (tx : option transaction)
    (records : list ignite_tuple) (callback : ignite_callback) : M world unit :=
  transactions_not_implemented tx ;;;
  with_latest_schema_async callback (RemoveAllExactBody records).

(** A call of a public operation, for statements over all fifteen. *)
Definition call_operation (tx : option transaction) (body : operation_body)
    (callback : ignite_callback) : M world unit :=
  match body with
  | GetBody key => get_async tx key callback
  | GetAllBody keys => get_all_async tx keys callback
  | UpsertBody record => upsert_async tx record callback
  | UpsertAllBody records => upsert_all_async tx records callback
  | GetAndUpsertBody record => get_and_upsert_async tx record callback
  | InsertBody record => insert_async tx record callback
  | InsertAllBody records => insert_all_async tx records callback
  | ReplaceBody record => replace_async tx record callback
  | ReplaceExactBody record new_record =>
      replace_exact_async tx record new_record callback
  | GetAndReplaceBody record => get_and_replace_async tx record callback
  | RemoveBody key => remove_async tx key callback
  | RemoveExactBody record => remove_exact_async tx record callback
  | GetAndRemoveBody key => get_and_remove_async tx key callback
  | RemoveAllBody keys => remove_all_async tx keys callback
  | RemoveAllExactBody records => remove_all_exact_async tx records callback
  end.

End table_impl.

(** ** Instances of the collaborators and data for the examples *)

(** A [get_schema] for the examples: the response starts with nil, for no
    schema, or with the version of a schema looked up in the cache. *)
Definition get_schema_by_version : M (table_impl * reader) (option schema) := fun st =>
  match snd st with
  | MNil :: rd' => (Ok None, (fst st, rd'))
  | MInt32 v :: rd' =>
      (Ok (match m_schemas (fst st) !! v with Some p => p | None => None end),
       (fst st, rd'))
  | _ => (Throw ProtocolError, st)
  end.

Definition type_of_id (id : Z) : ignite_type :=
  match id with
  | 1 => INT8 | 2 => INT16 | 3 => INT32 | 4 => INT64 | 5 => FLOAT | 6 => DOUBLE
  | 12 => UUID | 14 => STRING | 15 => BINARY
  | _ => OTHER id
  end.

Definition column_read (o : msgpack_object) : result column :=
  match o with
  | OArray [OStr n; OInt id; OBool key; OBool null] =>
      Ok (mk_column n (type_of_id id) null key)
  | _ => Throw ProtocolError
  end.

Fixpoint columns_read (l : list msgpack_object) : result (list column) :=
  match l with
  | [] => Ok []
  | o :: l' =>
      match column_read o, columns_read l' with
      | Ok c, Ok cs => Ok (c :: cs)
      | Throw e, _ => Throw e
      | _, Throw e => Throw e
      end
  end.

(** A [schema::read] for the examples: the key of the entry is the version,
    its value the array of the columns. *)
Definition schema_read_columns (object : msgpack_object_kv) : result schema :=
  match kv_key object, kv_val object with
  | OInt v, OArray cols =>
      match columns_read cols with
      | Ok cs =>
          Ok (mk_schema v (Z.of_nat (length (filter (fun c => is_key c = true) cs))) cs)
      | Throw e => Throw e
      end
  | _, _ => Throw ProtocolError
  end.

(** The schema of a table [(id INT64 key, name STRING)], version 1. *)
Definition person_schema : schema :=
  mk_schema 1 1 [mk_column "id" INT64 false true; mk_column "name" STRING true false].

Definition person_schema_kv : msgpack_object_kv :=
  mk_kv (OInt 1)
    (OArray [OArray [OStr "id"; OInt 4; OBool true; OBool false];
             OArray [OStr "name"; OInt 14; OBool false; OBool true]]).

Definition person_key : ignite_tuple := [("ID"%string, VInt64 42)].
Definition person_record : ignite_tuple :=
  [("name"%string, VString "alice"); ("id"%string, VInt64 42)].

Definition person_table_id : uuid := mk_uuid 7 11.

(** The binary tuples of a key, [id = 42], and of a value, [name = "bob"]. *)
Definition key_tuple_42 : binary_tuple := [Some (encode_le 8 42)].
Definition value_tuple_bob : binary_tuple := [Some (encode_string "bob")].

(** A schema with a column of a type the codec does not handle, and a record
    for it. *)
Definition priced_schema : schema :=
  mk_schema 1 1 [mk_column "id" INT64 false true; mk_column "price" (OTHER 7) true false].
Definition priced_record : ignite_tuple :=
  [("id"%string, VInt64 42); ("price"%string, VInt64 3)].

(** A table that has not seen a schema yet, and one that holds
    [person_schema]. *)
Definition fresh_world : world := mk_world (table_new person_table_id) [] [] [].
Definition seeded_table : table_impl :=
  snd (add_schema person_schema (table_new person_table_id)).
Definition seeded_world : world := mk_world seeded_table [] [] [].

(** ** Vocabulary of the statements *)

(** The value a record holds under a name, if any: what [tuple.get(name)]
    returns when it returns. *)
Fixpoint tuple_lookup (t : ignite_tuple) (n : string) : option value :=
  match t with
  | [] => None
  | (k, v) :: t' => if name_eqb k n then Some v else tuple_lookup t' n
  end.

(** Column names pairwise different as records compare them. *)
Fixpoint distinct_names (cs : list column) : bool :=
  match cs with
  | [] => true
  | c :: cs' =>
      negb (existsb (fun c' => name_eqb (name c) (name c')) cs') && distinct_names cs'
  end.

(** The key columns are a prefix of the columns, and the number of columns
    fits [std::int32_t]. *)
Definition schema_counts (sch : schema) : Prop :=
  0 <= key_column_count sch <= Z.of_nat (length (columns sch))
  /\ Z.of_nat (length (columns sch)) < 2 ^ 31.

Definition schema_wf (sch : schema) : Prop :=
  schema_counts sch /\ distinct_names (columns sch) = true.

(** A value of the C++ type its column declares. *)
Definition value_has_type (v : value) (t : ignite_type) : bool :=
  match t, v with
  | INT8, VInt8 z => (- 2 ^ 7 <=? z) && (z <? 2 ^ 7)
  | INT16, VInt16 z => (- 2 ^ 15 <=? z) && (z <? 2 ^ 15)
  | INT32, VInt32 z => (- 2 ^ 31 <=? z) && (z <? 2 ^ 31)
  | INT64, VInt64 z => (- 2 ^ 63 <=? z) && (z <? 2 ^ 63)
  | FLOAT, VFloat b => (0 <=? b) && (b <? 2 ^ 32)
  | DOUBLE, VDouble b => (0 <=? b) && (b <? 2 ^ 64)
  | UUID, VUuid u =>
      (0 <=? msb u) && (msb u <? 2 ^ 64) && (0 <=? lsb u) && (lsb u <? 2 ^ 64)
  | STRING, VString _ => true
  | BINARY, VBinary _ => true
  | _, _ => false
  end.

(** Every field the record has for the column is of the type of the column. *)
Definition column_fits (r : ignite_tuple) (col : column) : bool :=
  match tuple_lookup r (name col) with
  | None => true
  | Some v => value_has_type v (type col)
  end.

(** The columns a tuple is written or read with. *)
Definition tuple_columns (sch : schema) (key_only : bool) : list column :=
  firstn (Z.to_nat (tuple_count sch key_only)) (columns sch).

Definition record_fits (sch : schema) (r : ignite_tuple) (key_only : bool) : bool :=
  forallb (column_fits r) (tuple_columns sch key_only).

(** The payload a field is written with. *)
Definition encode_value (v : value) : option bytes :=
  match v with
  | VEmpty => None
  | VInt8 z => Some (encode_le 1 z)
  | VInt16 z => Some (encode_le 2 z)
  | VInt32 z => Some (encode_le 4 z)
  | VInt64 z => Some (encode_le 8 z)
  | VFloat b => Some (encode_le 4 b)
  | VDouble b => Some (encode_le 8 b)
  | VUuid u => Some (encode_uuid u)
  | VString s => Some (encode_string s)
  | VBinary b => Some b
  end.

(** The values [src] yields for the columns [cs], in order. *)
Fixpoint collect_values {St} (src : column -> M St value) (cs : list column)
  : M St (list value) :=
  match cs with
  | [] => ret []
  | c :: cs' =>
      v <- src c ;;
      vs <- collect_values src cs' ;;
      ret (v :: vs)
  end.

(** Reading the columns [cs], in order, from a parser. *)
Definition read_columns (cs : list column) : M binary_tuple_parser (list value) :=
  collect_values (fun c => read_next_column (type c)) cs.

(** The record after [res.set(name, value)] for the columns [cs] and the
    values [vs], in order. *)
Definition set_columns (res : ignite_tuple) (cs : list column) (vs : list value)
  : ignite_tuple :=
  fold_left (fun r cv => tuple_set r (name (fst cv)) (snd cv)) (combine cs vs) res.

(** What a record has for a column: its value, or the empty [std::any]. *)
Definition value_or_empty (r : ignite_tuple) (n : string) : value :=
  match tuple_lookup r n with
  | Some v => v
  | None => VEmpty
  end.

(** The field a record gives for a column of a tuple. *)
Definition field_of (r : ignite_tuple) (col : column) : option bytes :=
  encode_value (value_or_empty r (name col)).

(** The loop of [read_tuple]: for each column in turn, a value from [src]
    is set in the record under the name of the column. *)
Definition fill_loop (cols : list column) (src : column -> M binary_tuple_parser value)
    (i : Z) : M (ignite_tuple * binary_tuple_parser) unit :=
  column <- at_index cols i ;;
  v <- on_snd (src column) ;;
  on_fst (modify (fun res => tuple_set res (name column) v)).

(** The loop of the key-merging [read_tuple]: a key column takes its value
    from the key record, a value column from the parser. *)
Definition merge_loop (sch : schema) (key : ignite_tuple) (i : Z)
  : M (ignite_tuple * binary_tuple_parser) unit :=
  column <- at_index (columns sch) i ;;
  if i <? key_column_count sch
  then v <- tuple_get_name key (name column) ;;
       on_fst (modify (fun res => tuple_set res (name column) v))
  else v <- on_snd (read_next_column (type column)) ;;
       on_fst (modify (fun res => tuple_set res (name column) v)).


(** The two loops of [pack_tuple]. *)
Definition claim_loop (sch : schema) (tuple : ignite_tuple) (i : Z)
  : M (binary_tuple_builder * bitset_span) unit :=
  col <- at_index (columns sch) i ;;
  let col_idx := column_ordinal tuple (name col) in
  if 0 <=? col_idx
  then on_fst (claim_column (type col) col_idx tuple)
  else on_fst (builder_claim None).

Definition append_loop (sch : schema) (tuple : ignite_tuple) (i : Z)
  : M (binary_tuple_builder * bitset_span) unit :=
  col <- at_index (columns sch) i ;;
  let col_idx := column_ordinal tuple (name col) in
  if 0 <=? col_idx
  then on_fst (append_column (type col) col_idx tuple)
  else on_fst (builder_append None) ;;; on_snd (bitset_set i).

(** The record has no field for the column at index [k]. *)
Definition absent_at (r : ignite_tuple) (cols : list column) (k : Z) : bool :=
  match cols !! Z.to_nat k with
  | Some c => column_ordinal r (name c) <? 0
  | None => false
  end.

(** The state of the second loop of [pack_tuple] before column [j], for a
    bitset that was [nv0] when the loop started: the fields of the columns
    before [j] are appended, and their bits are set where the record has no
    field. *)
Definition packed_upto (sch : schema) (r : ignite_tuple) (nv0 : bitset_span) (j : Z)
    (s : binary_tuple_builder * bitset_span) : Prop :=
  b_elements (fst s) = map (field_of r) (take (Z.to_nat j) (columns sch))
  /\ (Z.to_nat j <= length (columns sch))%nat
  /\ (forall k c, (k < Z.to_nat j)%nat -> columns sch !! k = Some c ->
                  0 <= column_ordinal r (name c) -> field_of r c <> None)
  /\ length (snd s) = length nv0
  /\ (forall k, 0 <= k ->
        bitset_test (snd s) k
        = bitset_test nv0 k || ((k <? j) && absent_at r (columns sch) k)).

(** The states of the schema cache: it starts empty and grows by
    [add_schema], the versions of schemas being non-negative. *)
Inductive cache_reachable : table_impl -> Prop :=
| reachable_new id : cache_reachable (table_new id)
| reachable_add t s :
    cache_reachable t -> 0 <= version s -> cache_reachable (snd (add_schema s t)).

(** ** Vocabulary of the further statements *)

(** The exception a field of value [v] raises when it is claimed for a
    column of type [t]: none when [v] is of the C++ type of [t]. *)
Definition value_error (t : ignite_type) (v : value) : option ignite_error :=
  match t, v with
  | OTHER id, _ => Some (TypeNotSupported id)
  | INT8, VInt8 _ | INT16, VInt16 _ | INT32, VInt32 _ | INT64, VInt64 _
  | FLOAT, VFloat _ | DOUBLE, VDouble _ | UUID, VUuid _
  | STRING, VString _ | BINARY, VBinary _ => None
  | _, _ => Some TypeMismatch
  end.

(** The exception a column raises for a record: none when the record has no
    field for it. *)
Definition column_error (r : ignite_tuple) (col : column) : option ignite_error :=
  match tuple_lookup r (name col) with
  | None => None
  | Some v => value_error (type col) v
  end.

(** A field that [read_next_column] can read for a column of type [t]: an
    absent one, or any payload when [t] is one of the nine types. *)
Definition field_readable (t : ignite_type) (f : option bytes) : bool :=
  match f, t with
  | None, _ => true
  | Some _, OTHER _ => false
  | Some _, _ => true
  end.

(** The entries of a multi-tuple response: a tuple each, and for the optional
    form a flag and then the tuple when the flag is set. *)
Definition tuple_entries (ds : list binary_tuple) : list msg_item := map MBinary ds.

Definition opt_entry (e : option binary_tuple) : list msg_item :=
  match e with
  | None => [MBool false]
  | Some d => [MBool true; MBinary d]
  end.

Definition opt_entries (es : list (option binary_tuple)) : list msg_item :=
  flat_map opt_entry es.

(** An entry and what the optional reader returns for it. *)
Definition opt_entry_reads (sch : schema) (key_only : bool)
    (e : option binary_tuple) (t : option ignite_tuple) : Prop :=
  match e, t with
  | None, None => True
  | Some d, Some t' => fst (read_tuple sch key_only [MBinary d]) = Ok t'
  | _, _ => False
  end.

(** What [write_tuple] emits for a record: the bitset and the binary tuple. *)
Definition tuple_payload (sch : schema) (key_only : bool)
    (nv_r : bitset_span * ignite_tuple) : list msg_item :=
  [MBitset (fst nv_r); MBinary (map (field_of (snd nv_r)) (tuple_columns sch key_only))].

(** A writer closure that only appends to the frame. *)
Definition appends (c : M writer unit) : Prop :=
  forall w w', c w = (Ok tt, w') -> exists items, w' = w ++ items.

(** A record with the fields of [person_record] under other names and in
    another order, and one more field. *)
Definition person_record_shuffled : ignite_tuple :=
  [("Id"%string, VInt64 42); ("extra"%string, VInt8 1); ("NAME"%string, VString "alice")].

(** A record that has a string where [person_schema] has an INT64. *)
Definition person_record_mistyped : ignite_tuple :=
  [("id"%string, VString "42"); ("name"%string, VString "alice")].

(** A schema entry that does not parse. *)
Definition broken_schema_kv : msgpack_object_kv := mk_kv ONil ONil.

(** * Properties *)

(** ** The monad and the loops *)

Lemma bind_ok {St A B} (c : M St A) (k : A -> M St B) s a s' :
  c s = (Ok a, s') -> bind c k s = k a s'.
Proof. intros H. unfold bind. now rewrite H. Qed.

Lemma bind_throw {St A B} (c : M St A) (k : A -> M St B) s e s' :
  c s = (Throw e, s') -> bind c k s = (Throw e, s').
Proof. intros H. unfold bind. now rewrite H. Qed.

Lemma bind_ok_inv {St A B} (c : M St A) (k : A -> M St B) s b s' :
  bind c k s = (Ok b, s') -> exists a s1, c s = (Ok a, s1) /\ k a s1 = (Ok b, s').
Proof.
  unfold bind. destruct (c s) as [[a|e] s1]; intros H.
  - now exists a, s1.
  - discriminate.
Qed.

Lemma on_fst_eq {St T A} (c : M St A) (s : St) (t : T) :
  on_fst c (s, t) = (fst (c s), (snd (c s), t)).
Proof. unfold on_fst. simpl. now destruct (c s). Qed.

Lemma on_snd_eq {St T A} (c : M T A) (s : St) (t : T) :
  on_snd c (s, t) = (fst (c t), (s, snd (c t))).
Proof. unfold on_snd. simpl. now destruct (c t). Qed.

(** Loop invariant rule: an invariant kept by every iteration that returns
    holds when the loop returns. *)
Lemma for_loop_invariant {St} (I : Z -> St -> Prop) (body : Z -> M St unit) :
  forall n i s s',
    I i s ->
    (forall j t t', i <= j < i + Z.of_nat n -> I j t -> body j t = (Ok tt, t') -> I (j + 1) t') ->
    for_loop n i body s = (Ok tt, s') ->
    I (i + Z.of_nat n) s'.
Proof.
  induction n as [|n IH]; intros i s s' Hi Hstep Hrun.
  - simpl in Hrun. injection Hrun as <-. now rewrite Z.add_0_r.
  - simpl in Hrun. apply bind_ok_inv in Hrun as ([] & s1 & Hb & Hrest).
    replace (i + Z.of_nat (S n)) with (i + 1 + Z.of_nat n) by lia.
    apply (IH (i + 1) s1 s').
    + apply (Hstep i s s1); [lia | assumption | assumption].
    + intros j t t' Hj. apply Hstep. lia.
    + assumption.
Qed.

(** Total version: when every iteration returns and keeps the invariant, so
    does the loop. *)
Lemma for_loop_total {St} (I : Z -> St -> Prop) (body : Z -> M St unit) :
  forall n i s,
    I i s ->
    (forall j t, i <= j < i + Z.of_nat n -> I j t ->
                 exists t', body j t = (Ok tt, t') /\ I (j + 1) t') ->
    exists s', for_loop n i body s = (Ok tt, s') /\ I (i + Z.of_nat n) s'.
Proof.
  induction n as [|n IH]; intros i s Hi Hstep.
  - exists s. simpl. rewrite Z.add_0_r. now split.
  - destruct (Hstep i s) as (s1 & Hb & H1); [lia | assumption |].
    destruct (IH (i + 1) s1 H1) as (s' & Hrun & H').
    { intros j t Hj. apply Hstep. lia. }
    exists s'. split.
    + simpl. now rewrite (bind_ok _ _ _ _ _ Hb).
    + now replace (i + Z.of_nat (S n)) with (i + 1 + Z.of_nat n) by lia.
Qed.

Lemma at_index_ok_inv {St A} (v : list A) i (s s' : St) a :
  at_index v i s = (Ok a, s') -> 0 <= i /\ v !! Z.to_nat i = Some a /\ s' = s.
Proof.
  unfold at_index. destruct (i <? 0) eqn:Hi; [discriminate|].
  destruct (v !! Z.to_nat i) eqn:Hv; [|discriminate].
  intros H. injection H as <- <-. repeat split; lia.
Qed.

Lemma at_index_lookup {St A} (v : list A) i (s : St) a :
  0 <= i -> v !! Z.to_nat i = Some a -> at_index v i s = (Ok a, s).
Proof.
  intros Hi Hv. unfold at_index.
  destruct (i <? 0) eqn:E; [lia|]. now rewrite Hv.
Qed.

(** ** The record model *)

Lemma name_eqb_refl a : name_eqb a a = true.
Proof. unfold name_eqb. apply String.eqb_refl. Qed.

Lemma name_eqb_sym a b : name_eqb a b = name_eqb b a.
Proof. unfold name_eqb. apply String.eqb_sym. Qed.

Lemma name_eqb_trans a b c :
  name_eqb a b = true -> name_eqb b c = name_eqb a c.
Proof. unfold name_eqb. intros H. apply String.eqb_eq in H. now rewrite H. Qed.

Lemma tuple_lookup_respects t a b :
  name_eqb a b = true -> tuple_lookup t a = tuple_lookup t b.
Proof.
  intros H. induction t as [|[k v] t IH]; simpl; [reflexivity|].
  rewrite IH. rewrite (name_eqb_sym k a), (name_eqb_sym k b).
  now rewrite (name_eqb_trans _ _ _ H).
Qed.

Lemma tuple_lookup_set t n v m :
  tuple_lookup (tuple_set t n v) m
  = if name_eqb n m then Some v else tuple_lookup t m.
Proof.
  induction t as [|[k x] t IH]; simpl.
  - reflexivity.
  - destruct (name_eqb k n) eqn:Hkn; simpl.
    + rewrite (name_eqb_trans _ _ _ Hkn). now destruct (name_eqb k m).
    + rewrite IH. destruct (name_eqb k m) eqn:Hkm; [|reflexivity].
      destruct (name_eqb n m) eqn:Hnm; [|reflexivity].
      rewrite name_eqb_sym in Hnm.
      rewrite (name_eqb_trans _ _ n Hkm) in Hnm. congruence.
Qed.

(** [find_ordinal] finds the first field under the name, or none. *)
Lemma find_ordinal_spec t n : forall i,
  match tuple_lookup t n with
  | None => find_ordinal t n i = -1
  | Some v => exists k key,
      find_ordinal t n i = i + Z.of_nat k /\ t !! k = Some (key, v)
  end.
Proof.
  induction t as [|[k x] t IH]; intros i; simpl.
  - reflexivity.
  - destruct (name_eqb k n).
    + exists 0%nat, k. split; [lia | reflexivity].
    + specialize (IH (i + 1)). destruct (tuple_lookup t n).
      * destruct IH as (j & key & Hf & Hl). exists (S j), key. split; [lia | exact Hl].
      * exact IH.
Qed.

Lemma column_ordinal_none t n :
  tuple_lookup t n = None -> column_ordinal t n = -1.
Proof.
  intros H. unfold column_ordinal. pose proof (find_ordinal_spec t n 0) as Hs.
  now rewrite H in Hs.
Qed.

Lemma column_ordinal_some t n v :
  tuple_lookup t n = Some v ->
  0 <= column_ordinal t n /\ forall St (s : St), tuple_get t (column_ordinal t n) s = (Ok v, s).
Proof.
  intros H. unfold column_ordinal. pose proof (find_ordinal_spec t n 0) as Hs.
  rewrite H in Hs. destruct Hs as (k & key & Hf & Hl). rewrite Hf. split; [lia|].
  intros St s. unfold tuple_get.
  destruct (0 + Z.of_nat k <? 0) eqn:E; [lia|].
  replace (Z.to_nat (0 + Z.of_nat k)) with k by lia. now rewrite Hl.
Qed.

Lemma column_ordinal_neg_iff t n :
  column_ordinal t n < 0 <-> tuple_lookup t n = None.
Proof.
  split; intros H.
  - destruct (tuple_lookup t n) eqn:E; [|reflexivity].
    apply column_ordinal_some in E as [E _]. lia.
  - rewrite (column_ordinal_none _ _ H). lia.
Qed.

Lemma tuple_get_name_lookup {St} t n (s : St) :
  tuple_get_name t n s
  = match tuple_lookup t n with
    | Some v => (Ok v, s)
    | None => (Throw FieldNotFound, s)
    end.
Proof.
  unfold tuple_get_name. destruct (tuple_lookup t n) as [v|] eqn:E.
  - apply column_ordinal_some in E as [E1 E2].
    destruct (column_ordinal t n <? 0) eqn:E3; [lia|]. apply E2.
  - rewrite (column_ordinal_none _ _ E). reflexivity.
Qed.

(** ** The schema cache *)

Lemma cache_reachable_inv t :
  cache_reachable t ->
  (m_latest_schema_version t < 0 -> m_schemas t = ∅)
  /\ (0 <= m_latest_schema_version t ->
      exists s, m_schemas t !! m_latest_schema_version t = Some (Some s)).
Proof.
  induction 1 as [id | t s Ht [IH1 IH2] Hs]; simpl.
  - split; [reflexivity | lia].
  - destruct (m_latest_schema_version t <? version s) eqn:E.
    + split; [lia|]. intros _. exists s. apply lookup_insert_eq.
    + split; [lia|]. intros Hl.
      destruct (decide (version s = m_latest_schema_version t)) as [Heq|Hne].
      * exists s. rewrite <- Heq. apply lookup_insert_eq.
      * rewrite lookup_insert_ne by exact Hne. now apply IH2.
Qed.

Section operations.

Variable schema_read : msgpack_object_kv -> result schema.
Variable get_schema : M (table_impl * reader) (option schema).

Lemma read_schemas_all entries schemas :
  Forall2 (fun o s => schema_read o = Ok s) entries schemas ->
  forall lst t rd,
    read_schemas schema_read entries lst (t, rd)
    = (Ok (match last schemas with Some s => Some s | None => lst end),
       (fold_left (fun t s => snd (add_schema s t)) schemas t, rd)).
Proof.
  induction 1 as [|o s entries schemas Ho _ IH]; intros lst t rd.
  - reflexivity.
  - simpl read_schemas. unfold bind at 1. unfold lift_result. rewrite Ho.
    unfold bind at 1. rewrite on_fst_eq. simpl fst. simpl snd.
    rewrite IH. simpl fold_left.
    destruct schemas as [|s' schemas']; [reflexivity|].
    change (last (s :: s' :: schemas')) with (last (s' :: schemas')).
    destruct (last (s' :: schemas')) eqn:El; [reflexivity|].
    apply last_None in El. discriminate.
Qed.

Lemma process_response_user rd id response w :
  process_response get_schema (mk_handler rd (UserCallback id)) response w
  = (Ok tt, mk_world (fst (snd (rd (w_table w, response)))) (w_sent w) (w_pending w)
              (w_calls w ++ [(id, fst (rd (w_table w, response)))])).
Proof.
  unfold process_response. simpl.
  destruct (rd (w_table w, response)) as [res [t' rd']]. reflexivity.
Qed.

(** C6.  [load_schema_async] sends one SCHEMAS_GET request, of body
    (table id, nil), and leaves the callback with the request.  When the
    response is an empty map, the callback is invoked with the error "Schema
    not found" and the cache is as before; when it is a map of entries that
    all parse, every parsed schema has been added to the cache, in order, and
    the callback is invoked with the last one. *)
Theorem load_schema_async_spec callback id w rest entries schemas :
  entries <> [] ->
  Forall2 (fun o s => schema_read o = Ok s) entries schemas ->
  load_schema_async schema_read callback w
  = (Ok tt,
     mk_world (w_table w)
       (w_sent w ++ [(SCHEMAS_GET, [MUuid (m_id (w_table w)); MNil])])
       (w_pending w ++ [mk_handler (load_schema_reader_func schema_read) callback])
       (w_calls w))
  /\ process_response get_schema
       (mk_handler (load_schema_reader_func schema_read) (UserCallback id))
       (MMap [] :: rest) w
     = (Ok tt,
        mk_world (w_table w) (w_sent w) (w_pending w)
          (w_calls w ++ [(id, Throw SchemaNotFound)]))
  /\ process_response get_schema
       (mk_handler (load_schema_reader_func schema_read) (UserCallback id))
       (MMap entries :: rest) w
     = (Ok tt,
        mk_world (fold_left (fun t s => snd (add_schema s t)) schemas (w_table w))
          (w_sent w) (w_pending w)
          (w_calls w ++ [(id, Ok (PSchema (last schemas)))])).
Proof.
  intros Hne Hall. split; [reflexivity|]. split.
  - rewrite process_response_user. reflexivity.
  - rewrite process_response_user.
    assert (Hrun : load_schema_reader_func schema_read
                     (w_table w, (MMap entries :: rest) : reader)
                   = (Ok (PSchema (last schemas)),
                      (fold_left (fun t s => snd (add_schema s t)) schemas (w_table w), rest))).
    { pose proof (read_schemas_all _ _ Hall None (w_table w) rest) as Hrs.
      unfold load_schema_reader_func. unfold bind at 1. rewrite on_snd_eq.
      cbn [read_map_size fst snd].
      destruct (Z.of_nat (length entries) =? 0) eqn:E.
      { destruct entries; [congruence | simpl in E; lia]. }
      unfold bind at 1. rewrite on_snd_eq. cbn [read_map_raw fst snd].
      unfold bind at 1. rewrite Hrs. unfold ret. now destruct (last schemas). }
    rewrite Hrun. reflexivity.
Qed.

(** C7.  [get_latest_schema_async] reads [m_latest_schema_version].  When it
    is non-negative the cache holds a schema for it and the callback is
    invoked at once with that schema, the world being as it was: no request
    is sent.  When it is negative the cache is empty and the call is
    [load_schema_async] with the same callback. *)
Theorem get_latest_schema_async_spec callback w :
  cache_reachable (w_table w) ->
  (0 <= m_latest_schema_version (w_table w) ->
   exists s,
     m_schemas (w_table w) !! m_latest_schema_version (w_table w) = Some (Some s)
     /\ get_latest_schema_async schema_read get_schema callback w
        = invoke get_schema callback (Ok (PSchema (Some s))) w)
  /\ (m_latest_schema_version (w_table w) < 0 ->
      m_schemas (w_table w) = ∅
      /\ get_latest_schema_async schema_read get_schema callback w
         = load_schema_async schema_read callback w).
Proof.
  intros Hr. apply cache_reachable_inv in Hr as [Hneg Hpos]. split.
  - intros Hv. destruct (Hpos Hv) as [s Hs]. exists s. split; [exact Hs|].
    unfold get_latest_schema_async, bind at 1, get_state.
    destruct (0 <=? m_latest_schema_version (w_table w)) eqn:E; [|lia].
    unfold bind, on_table, schemas_index. rewrite Hs. now destruct w.
  - intros Hv. split; [now apply Hneg|].
    unfold get_latest_schema_async, bind at 1, get_state.
    destruct (0 <=? m_latest_schema_version (w_table w)) eqn:E; [lia|]. reflexivity.
Qed.

(** C1, as the code has it.  Called with a transaction, each of the fifteen
    public operations throws "Transactions are not implemented" to its caller
    before anything else: the world is as it was, so no request has been sent
    and the callback has not been invoked. *)
Theorem transaction_gate_throws (tx : transaction) body callback w :
  call_operation schema_read get_schema (Some tx) body callback w
  = (Throw TransactionsNotImplemented, w).
Proof. destruct body; reflexivity. Qed.

(** C9.  With a null schema [read_tuples] and [read_tuples_opt] return the
    empty vector and leave the reader where it is.  So when [get_schema]
    resolves the response to no schema, the callbacks of get_all, insert_all,
    remove_all and remove_all_exact get an empty vector, and the rest of the
    response is not read. *)
Theorem read_tuples_null_schema key_only id w response t' rest :
  get_schema (w_table w, response) = (Ok None, (t', rest)) ->
  read_tuples None key_only rest = (Ok [], rest)
  /\ read_tuples_opt None key_only rest = (Ok [], rest)
  /\ get_all_reader_func get_schema (w_table w, response) = (Ok (POptTuples []), (t', rest))
  /\ insert_all_reader_func get_schema (w_table w, response) = (Ok (PTuples []), (t', rest))
  /\ remove_all_reader_func get_schema (w_table w, response) = (Ok (PTuples []), (t', rest))
  /\ remove_all_exact_reader_func get_schema (w_table w, response)
     = (Ok (PTuples []), (t', rest))
  /\ process_response get_schema
       (mk_handler (get_all_reader_func get_schema) (UserCallback id)) response w
     = (Ok tt, mk_world t' (w_sent w) (w_pending w)
                 (w_calls w ++ [(id, Ok (POptTuples []))]))
  /\ (forall rd,
        In rd [insert_all_reader_func get_schema; remove_all_reader_func get_schema;
               remove_all_exact_reader_func get_schema] ->
        process_response get_schema (mk_handler rd (UserCallback id)) response w
        = (Ok tt, mk_world t' (w_sent w) (w_pending w)
                    (w_calls w ++ [(id, Ok (PTuples []))]))).
Proof.
  intros Hs.
  assert (H1 : get_all_reader_func get_schema (w_table w, response)
               = (Ok (POptTuples []), (t', rest))).
  { unfold get_all_reader_func. now rewrite (bind_ok _ _ _ _ _ Hs). }
  assert (H2 : insert_all_reader_func get_schema (w_table w, response)
               = (Ok (PTuples []), (t', rest))).
  { unfold insert_all_reader_func. now rewrite (bind_ok _ _ _ _ _ Hs). }
  assert (H3 : remove_all_reader_func get_schema (w_table w, response)
               = (Ok (PTuples []), (t', rest))).
  { unfold remove_all_reader_func. now rewrite (bind_ok _ _ _ _ _ Hs). }
  assert (H4 : remove_all_exact_reader_func get_schema (w_table w, response)
               = (Ok (PTuples []), (t', rest))).
  { unfold remove_all_exact_reader_func. now rewrite (bind_ok _ _ _ _ _ Hs). }
  repeat split; try assumption.
  - rewrite process_response_user, H1. reflexivity.
  - intros rd [<-|[<-|[<-|[]]]]; rewrite process_response_user.
    + now rewrite H2.
    + now rewrite H3.
    + now rewrite H4.
Qed.

End operations.

(** ** Loops over the columns *)

Lemma for_loop_ext {St} (body1 body2 : Z -> M St unit) :
  forall n i s,
    (forall j t, i <= j < i + Z.of_nat n -> body1 j t = body2 j t) ->
    for_loop n i body1 s = for_loop n i body2 s.
Proof.
  induction n as [|n IH]; intros i s Hext; [reflexivity|].
  simpl. unfold bind. rewrite (Hext i s) by lia.
  destruct (body2 i s) as [[[]|e] s1]; [|reflexivity].
  apply IH. intros j t Hj. apply Hext. lia.
Qed.

Lemma for_loop_split {St} (body : Z -> M St unit) n2 :
  forall n1 i s,
    for_loop (n1 + n2) i body s
    = (for_loop n1 i body ;;; for_loop n2 (i + Z.of_nat n1) body) s.
Proof.
  induction n1 as [|n1 IH]; intros i s.
  - simpl. unfold bind, ret. now rewrite Z.add_0_r.
  - cbn [Nat.add for_loop]. unfold bind.
    destruct (body i s) as [[[]|e] s1]; [|reflexivity].
    rewrite IH. unfold bind.
    now replace (i + 1 + Z.of_nat n1) with (i + Z.of_nat (S n1)) by lia.
Qed.

Lemma fill_loop_inv cols src : forall n i res p res' p',
  0 <= i ->
  for_loop n i (fill_loop cols src) (res, p) = (Ok tt, (res', p')) ->
  length (take n (drop (Z.to_nat i) cols)) = n
  /\ exists vs,
       collect_values src (take n (drop (Z.to_nat i) cols)) p = (Ok vs, p')
       /\ res' = set_columns res (take n (drop (Z.to_nat i) cols)) vs.
Proof.
  induction n as [|n IH]; intros i res p res' p' Hi Hrun.
  - simpl in Hrun. injection Hrun as <- <-. split; [reflexivity|].
    exists []. split; reflexivity.
  - simpl in Hrun. apply bind_ok_inv in Hrun as ([] & [res1 p1] & Hb & Hrest).
    unfold fill_loop in Hb.
    apply bind_ok_inv in Hb as (col & s1 & Hat & Hb).
    apply at_index_ok_inv in Hat as (_ & Hcol & ->).
    apply bind_ok_inv in Hb as (v & s2 & Hsrc & Hset).
    unfold on_snd in Hsrc. simpl in Hsrc.
    destruct (src col p) as [r0 p0] eqn:E. injection Hsrc as -> <-.
    unfold on_fst, modify in Hset. simpl in Hset. injection Hset as <- <-.
    apply IH in Hrest as (Hlen & vs & Hvs & ->); [|lia].
    replace (Z.to_nat (i + 1)) with (S (Z.to_nat i)) in * by lia.
    rewrite (drop_S _ _ _ Hcol). simpl take. split; [simpl; now rewrite Hlen|].
    exists (v :: vs). split.
    + simpl. unfold bind at 1. rewrite E.
      unfold bind at 1. rewrite Hvs. reflexivity.
    + reflexivity.
Qed.

Lemma collect_values_length {St} (src : column -> M St value) cs : forall s vs s',
  collect_values src cs s = (Ok vs, s') -> length vs = length cs.
Proof.
  induction cs as [|c cs IH]; intros s vs s' H; simpl in H.
  - injection H as <- <-. reflexivity.
  - apply bind_ok_inv in H as (v & s1 & _ & H).
    apply bind_ok_inv in H as (vs' & s2 & H & Hret).
    injection Hret as <- <-. simpl. f_equal. eapply IH, H.
Qed.

Lemma fill_loop_run cols src : forall cs i res p vs p',
  0 <= i ->
  take (length cs) (drop (Z.to_nat i) cols) = cs ->
  collect_values src cs p = (Ok vs, p') ->
  for_loop (length cs) i (fill_loop cols src) (res, p)
  = (Ok tt, (set_columns res cs vs, p')).
Proof.
  induction cs as [|c cs IH]; intros i res p vs p' Hi Hcs Hvs.
  - simpl in Hvs. injection Hvs as <- <-. reflexivity.
  - simpl in Hvs. apply bind_ok_inv in Hvs as (v & p1 & Hv & Hvs).
    apply bind_ok_inv in Hvs as (vs' & p2 & Hvs & Hret).
    injection Hret as <- <-.
    assert (Hcol : cols !! Z.to_nat i = Some c).
    { destruct (drop (Z.to_nat i) cols) as [|c0 l0] eqn:E; [discriminate|].
      simpl in Hcs. injection Hcs as -> _.
      rewrite <- (Nat.add_0_r (Z.to_nat i)), <- lookup_drop, E. reflexivity. }
    assert (Hrest : take (length cs) (drop (Z.to_nat (i + 1)) cols) = cs).
    { replace (Z.to_nat (i + 1)) with (S (Z.to_nat i)) by lia.
      rewrite (drop_S _ _ _ Hcol) in Hcs. simpl in Hcs. now injection Hcs. }
    simpl for_loop. unfold bind at 1. unfold fill_loop at 1.
    unfold bind at 1. rewrite (at_index_lookup _ _ _ _ Hi Hcol).
    unfold bind at 1. rewrite on_snd_eq, Hv. cbn [fst snd].
    rewrite on_fst_eq. cbn [fst snd modify].
    rewrite (IH (i + 1) _ p1 vs' p2); [reflexivity | lia | exact Hrest | exact Hvs].
Qed.

(** ** Setting the columns of a record *)

Lemma tuple_lookup_app t1 t2 n :
  tuple_lookup (t1 ++ t2) n
  = match tuple_lookup t1 n with
    | Some v => Some v
    | None => tuple_lookup t2 n
    end.
Proof.
  induction t1 as [|[k v] t1 IH]; simpl; [reflexivity|].
  now destruct (name_eqb k n).
Qed.

Lemma tuple_set_fresh t n v :
  tuple_lookup t n = None -> tuple_set t n v = t ++ [(n, v)].
Proof.
  induction t as [|[k x] t IH]; simpl; [reflexivity|].
  destruct (name_eqb k n); [discriminate|]. intros H. now rewrite IH.
Qed.

Lemma distinct_names_head c cs c' :
  distinct_names (c :: cs) = true -> In c' cs -> name_eqb (name c) (name c') = false.
Proof.
  simpl. intros H Hin. apply andb_prop in H as [H _].
  destruct (name_eqb (name c) (name c')) eqn:E; [|reflexivity].
  assert (Hex : existsb (fun c' => name_eqb (name c) (name c')) cs = true).
  { apply existsb_exists. now exists c'. }
  rewrite Hex in H. discriminate.
Qed.

Lemma distinct_names_tail c cs :
  distinct_names (c :: cs) = true -> distinct_names cs = true.
Proof. simpl. intros H. now apply andb_prop in H as [_ H]. Qed.

Lemma distinct_names_app l1 l2 :
  distinct_names (l1 ++ l2) = true ->
  distinct_names l1 = true /\ distinct_names l2 = true
  /\ forall a b, In a l1 -> In b l2 -> name_eqb (name a) (name b) = false.
Proof.
  induction l1 as [|c l1 IH]; intros H.
  - repeat split; [exact H | intros a b []].
  - change ((c :: l1) ++ l2) with (c :: (l1 ++ l2)) in H.
    pose proof (fun c' => distinct_names_head _ _ c' H) as Hc.
    apply distinct_names_tail in H. destruct (IH H) as (H1 & H2 & H3).
    repeat split.
    + simpl. rewrite H1, andb_true_r. apply negb_true_iff.
      destruct (existsb _ l1) eqn:E; [|reflexivity].
      apply existsb_exists in E as (c' & Hin & Hc').
      rewrite Hc in Hc'; [discriminate|]. apply in_or_app. now left.
    + exact H2.
    + intros a b [<-|Ha] Hb.
      * apply Hc. apply in_or_app. now right.
      * now apply H3.
Qed.

Lemma set_columns_fresh : forall cs vs res,
  length vs = length cs ->
  distinct_names cs = true ->
  (forall c, In c cs -> tuple_lookup res (name c) = None) ->
  set_columns res cs vs = res ++ combine (map name cs) vs.
Proof.
  induction cs as [|c cs IH]; intros vs res Hlen Hd Hfresh.
  - simpl. unfold set_columns. simpl. now rewrite app_nil_r.
  - destruct vs as [|v vs]; [discriminate|].
    unfold set_columns. simpl. fold (set_columns (tuple_set res (name c) v) cs vs).
    rewrite tuple_set_fresh by (apply Hfresh; now left).
    rewrite IH.
    + now rewrite <- app_assoc.
    + simpl in Hlen. lia.
    + eapply distinct_names_tail, Hd.
    + intros c' Hin. rewrite tuple_lookup_app, Hfresh by now right.
      simpl. now rewrite (distinct_names_head _ _ _ Hd Hin).
Qed.

Lemma set_columns_app : forall cs1 vs1 cs2 vs2 res,
  length vs1 = length cs1 ->
  set_columns res (cs1 ++ cs2) (vs1 ++ vs2)
  = set_columns (set_columns res cs1 vs1) cs2 vs2.
Proof.
  induction cs1 as [|c cs1 IH]; intros vs1 cs2 vs2 res Hlen.
  - destruct vs1; [reflexivity | discriminate].
  - destruct vs1 as [|v vs1]; [discriminate|].
    unfold set_columns. simpl.
    apply (IH vs1 cs2 vs2 (tuple_set res (name c) v)). simpl in Hlen. lia.
Qed.

Lemma lookup_combine_distinct : forall cs vs i c v,
  distinct_names cs = true ->
  cs !! i = Some c -> vs !! i = Some v ->
  tuple_lookup (combine (map name cs) vs) (name c) = Some v.
Proof.
  induction cs as [|c0 cs IH]; intros vs i c v Hd Hc Hv; [discriminate|].
  destruct vs as [|v0 vs]; [discriminate|].
  destruct i as [|i]; simpl in Hc, Hv.
  - injection Hc as ->. injection Hv as ->. simpl. now rewrite name_eqb_refl.
  - simpl. rewrite (distinct_names_head _ _ c Hd).
    + eapply IH; eauto. eapply distinct_names_tail, Hd.
    + apply list_elem_of_In. eapply list_elem_of_lookup_2, Hc.
Qed.

Lemma map_fst_combine_names (cs : list column) (vs : list value) :
  length vs = length cs -> map fst (combine (map name cs) vs) = map name cs.
Proof.
  revert vs. induction cs as [|c cs IH]; intros [|v vs] H; try discriminate.
  - reflexivity.
  - simpl. f_equal. apply IH. simpl in H. lia.
Qed.

(** ** [read_tuple] *)

Lemma to_int32_small z : - 2 ^ 31 <= z < 2 ^ 31 -> to_int32 z = z.
Proof. intros H. unfold to_int32. rewrite Z.mod_small; lia. Qed.

Lemma tuple_count_wf sch key_only :
  schema_counts sch ->
  tuple_count sch key_only
  = (if key_only then key_column_count sch else Z.of_nat (length (columns sch)))
  /\ 0 <= tuple_count sch key_only <= Z.of_nat (length (columns sch)).
Proof.
  intros [H1 H2]. unfold tuple_count.
  rewrite to_int32_small by (destruct key_only; lia).
  split; [reflexivity | destruct key_only; lia].
Qed.

Lemma read_tuple_inv sch key_only rd res rd' :
  read_tuple sch key_only rd = (Ok res, rd') ->
  exists data p',
    rd = MBinary data :: rd'
    /\ for_loop (Z.to_nat (tuple_count sch key_only)) 0
         (fill_loop (columns sch) (fun c => read_next_column (type c)))
         (tuple_new (tuple_count sch key_only), parser_new (tuple_count sch key_only) data)
       = (Ok tt, (res, p')).
Proof.
  unfold read_tuple, bind at 1, read_binary.
  destruct rd as [|[] rd]; try discriminate.
  change (fun i : Z => column <- at_index (columns sch) i;;
                       v <- on_snd (read_next_column (type column));;
                       on_fst (modify (fun res0 => tuple_set res0 (name column) v)))
    with (fill_loop (columns sch) (fun c => read_next_column (type c))).
  destruct (for_loop _ _ _ _) as [[[]|e] [res1 p1]] eqn:E; [|discriminate].
  intros H. injection H as <- <-. now exists t, p1.
Qed.

Lemma read_tuple_run sch key_only data rd res p' :
  for_loop (Z.to_nat (tuple_count sch key_only)) 0
    (fill_loop (columns sch) (fun c => read_next_column (type c)))
    (tuple_new (tuple_count sch key_only), parser_new (tuple_count sch key_only) data)
  = (Ok tt, (res, p')) ->
  read_tuple sch key_only (MBinary data :: rd) = (Ok res, rd).
Proof.
  intros H. unfold read_tuple, bind at 1, read_binary.
  change (fun i : Z => column <- at_index (columns sch) i;;
                       v <- on_snd (read_next_column (type column));;
                       on_fst (modify (fun res0 => tuple_set res0 (name column) v)))
    with (fill_loop (columns sch) (fun c => read_next_column (type c))).
  now rewrite H.
Qed.

Lemma read_tuple_shape sch key_only rd res rd' :
  schema_wf sch ->
  read_tuple sch key_only rd = (Ok res, rd') ->
  exists data vs p',
    rd = MBinary data :: rd'
    /\ read_columns (tuple_columns sch key_only)
         (parser_new (tuple_count sch key_only) data) = (Ok vs, p')
    /\ res = combine (map name (tuple_columns sch key_only)) vs
    /\ map fst res = map name (tuple_columns sch key_only)
    /\ column_count res = tuple_count sch key_only.
Proof.
  intros [Hc Hd] Hrun.
  apply read_tuple_inv in Hrun as (data & p' & -> & Hloop).
  apply fill_loop_inv in Hloop as (Hlen & vs & Hvs & ->); [|lia].
  change (Z.to_nat 0) with 0%nat in *. rewrite drop_0 in *.
  fold (tuple_columns sch key_only) in *.
  pose proof (collect_values_length _ _ _ _ _ Hvs) as Hlvs.
  assert (Hdt : distinct_names (tuple_columns sch key_only) = true).
  { unfold tuple_columns.
    rewrite <- (take_drop (Z.to_nat (tuple_count sch key_only)) (columns sch)) in Hd.
    now apply distinct_names_app in Hd as (Hd & _). }
  rewrite set_columns_fresh; [|exact Hlvs|exact Hdt|reflexivity].
  exists data, vs, p'. simpl app.
  repeat split; [exact Hvs | now apply map_fst_combine_names |].
  unfold column_count. rewrite length_combine, length_map, Hlvs, Nat.min_id, Hlen.
  destruct (tuple_count_wf sch key_only Hc). lia.
Qed.

(** C2, as the code has it.  [read_tuple(reader, sch, key_only)] reads one
    binary tuple, parses it as a tuple of [count] fields and returns the
    record of the first [count] columns of the schema, in order, each with
    the value read for it: [count] is [key_column_count] when [key_only] is
    set and the number of columns otherwise, and it is the size of the
    record. *)
Theorem read_tuple_columns sch key_only rd res rd' :
  schema_wf sch ->
  read_tuple sch key_only rd = (Ok res, rd') ->
  exists data vs p',
    rd = MBinary data :: rd'
    /\ read_columns (tuple_columns sch key_only)
         (parser_new (tuple_count sch key_only) data) = (Ok vs, p')
    /\ res = combine (map name (tuple_columns sch key_only)) vs
    /\ map fst res = map name (tuple_columns sch key_only)
    /\ column_count res = tuple_count sch key_only.
Proof. apply read_tuple_shape. Qed.

(** ** The key-merging [read_tuple] *)

Lemma merge_loop_key sch key i s :
  (i <? key_column_count sch) = true ->
  merge_loop sch key i s
  = fill_loop (columns sch) (fun c => tuple_get_name key (name c)) i s.
Proof.
  intros Hi. unfold merge_loop, fill_loop, bind.
  destruct (at_index (columns sch) i s) as [[c|e] [res p]]; [|reflexivity].
  rewrite Hi, on_snd_eq, !tuple_get_name_lookup.
  now destruct (tuple_lookup key (name c)).
Qed.

Lemma merge_loop_value sch key i s :
  (i <? key_column_count sch) = false ->
  merge_loop sch key i s
  = fill_loop (columns sch) (fun c => read_next_column (type c)) i s.
Proof.
  intros Hi. unfold merge_loop, fill_loop, bind.
  destruct (at_index (columns sch) i s) as [[c|e] [res p]]; [|reflexivity].
  now rewrite Hi.
Qed.

Lemma collect_key_values {St} key cs : forall (s s' : St) kvs,
  collect_values (fun c => tuple_get_name key (name c)) cs s = (Ok kvs, s') ->
  s' = s /\ Forall2 (fun c v => tuple_lookup key (name c) = Some v) cs kvs.
Proof.
  induction cs as [|c cs IH]; intros s s' kvs H; simpl in H.
  - injection H as <- <-. split; [reflexivity | constructor].
  - apply bind_ok_inv in H as (v & s1 & Hv & H).
    apply bind_ok_inv in H as (vs & s2 & Hvs & Hret).
    injection Hret as <- <-.
    rewrite tuple_get_name_lookup in Hv.
    destruct (tuple_lookup key (name c)) eqn:E; [|discriminate].
    injection Hv as -> ->.
    apply IH in Hvs as [-> Hall]. split; [reflexivity | now constructor].
Qed.

Lemma read_tuple_key_inv sch key rd res rd' :
  read_tuple_key sch key rd = (Ok res, rd') ->
  exists data p',
    rd = MBinary data :: rd'
    /\ for_loop (Z.to_nat (to_int32 (Z.of_nat (length (columns sch))))) 0
         (merge_loop sch key)
         (tuple_new (to_int32 (Z.of_nat (length (columns sch)))),
          parser_new (to_int32 (Z.of_nat (length (columns sch))) - key_column_count sch)
            data)
       = (Ok tt, (res, p')).
Proof.
  unfold read_tuple_key, bind at 1, read_binary.
  destruct rd as [|[] rd]; try discriminate.
  change (fun i : Z => column <- at_index (columns sch) i;;
            if i <? key_column_count sch
            then v <- tuple_get_name key (name column);;
                 on_fst (modify (fun res0 => tuple_set res0 (name column) v))
            else v <- on_snd (read_next_column (type column));;
                 on_fst (modify (fun res0 => tuple_set res0 (name column) v)))
    with (merge_loop sch key).
  destruct (for_loop _ _ _ _) as [[[]|e] [res1 p1]] eqn:E; [|discriminate].
  intros H. injection H as <- <-. now exists t, p1.
Qed.

Lemma read_tuple_key_shape sch key rd res rd' :
  schema_wf sch ->
  read_tuple_key sch key rd = (Ok res, rd') ->
  exists data kvs vs p',
    rd = MBinary data :: rd'
    /\ Forall2 (fun c v => tuple_lookup key (name c) = Some v)
         (take (Z.to_nat (key_column_count sch)) (columns sch)) kvs
    /\ read_columns (drop (Z.to_nat (key_column_count sch)) (columns sch))
         (parser_new (Z.of_nat (length (columns sch)) - key_column_count sch) data)
       = (Ok vs, p')
    /\ res = combine (map name (columns sch)) (kvs ++ vs).
Proof.
  intros [[Hk Hl] Hd] Hrun.
  apply read_tuple_key_inv in Hrun as (data & p' & -> & Hloop).
  rewrite to_int32_small in Hloop by lia. rewrite Nat2Z.id in Hloop.
  set (k := Z.to_nat (key_column_count sch)) in *.
  set (cols := columns sch) in *.
  assert (Hn : length cols = (k + (length cols - k))%nat) by lia.
  rewrite Hn in Hloop at 1. rewrite for_loop_split in Hloop.
  apply bind_ok_inv in Hloop as ([] & [res1 p1] & Hkeys & Hvals).
  rewrite (for_loop_ext _ (fill_loop cols (fun c => tuple_get_name key (name c)))) in Hkeys.
  2:{ intros j t Hj. apply merge_loop_key. apply Z.ltb_lt. lia. }
  rewrite (for_loop_ext _ (fill_loop cols (fun c => read_next_column (type c)))) in Hvals.
  2:{ intros j t Hj. apply merge_loop_value. apply Z.ltb_ge. lia. }
  apply fill_loop_inv in Hkeys as (_ & kvs & Hkvs & ->); [|lia].
  apply fill_loop_inv in Hvals as (_ & vs & Hvs & ->); [|lia].
  change (Z.to_nat 0) with 0%nat in *. rewrite drop_0 in *.
  replace (Z.to_nat (0 + Z.of_nat k)) with k in * by lia.
  rewrite (take_ge (drop k cols)) in * by (rewrite length_drop; lia).
  pose proof (collect_values_length _ _ _ _ _ Hkvs) as Hlk.
  pose proof (collect_values_length _ _ _ _ _ Hvs) as Hlv.
  apply collect_key_values in Hkvs as [-> Hall].
  exists data, kvs, vs, p'. repeat split; [exact Hall | exact Hvs |].
  rewrite <- set_columns_app by exact Hlk. rewrite take_drop.
  rewrite set_columns_fresh; [reflexivity | | exact Hd | reflexivity].
  rewrite length_app, Hlk, Hlv, <- length_app, take_drop. reflexivity.
Qed.

Lemma read_tuple_key_lookups sch key rd res rd' :
  schema_wf sch ->
  read_tuple_key sch key rd = (Ok res, rd') ->
  forall c, In c (take (Z.to_nat (key_column_count sch)) (columns sch)) ->
  exists v, tuple_lookup key (name c) = Some v /\ tuple_lookup res (name c) = Some v.
Proof.
  intros Hwf Hrun c Hin.
  destruct (read_tuple_key_shape _ _ _ _ _ Hwf Hrun) as (data & kvs & vs & p' & _ & Hall & _ & ->).
  apply list_elem_of_In, list_elem_of_lookup_1 in Hin as [i Hi].
  destruct (Forall2_lookup_l _ _ _ _ _ Hall Hi) as (v & Hv & Hkey).
  exists v. split; [exact Hkey|].
  apply (lookup_combine_distinct _ _ i).
  - apply Hwf.
  - apply lookup_take_Some in Hi. apply Hi.
  - now apply lookup_app_l_Some.
Qed.

(** C5.  When the key-merging [read_tuple(reader, sch, key)] returns, it has
    read one binary tuple and parsed it as a tuple of
    [columns.size() - key_column_count] fields, from which the values of the
    value columns were read in order; and the record it returns has, under
    each key column, exactly what [key.get] gives for that column, whatever
    the tuple held. *)
Theorem read_tuple_key_merges_key sch key rd res rd' :
  schema_wf sch ->
  read_tuple_key sch key rd = (Ok res, rd') ->
  exists data vs p',
    rd = MBinary data :: rd'
    /\ read_columns (drop (Z.to_nat (key_column_count sch)) (columns sch))
         (parser_new (Z.of_nat (length (columns sch)) - key_column_count sch) data)
       = (Ok vs, p')
    /\ (forall c, In c (take (Z.to_nat (key_column_count sch)) (columns sch)) ->
        exists v, tuple_get_name key (name c) tt = (Ok v, tt)
                  /\ tuple_get_name res (name c) tt = (Ok v, tt))
    /\ Forall2 (fun c v => tuple_get_name res (name c) tt = (Ok v, tt))
         (drop (Z.to_nat (key_column_count sch)) (columns sch)) vs
    /\ map fst res = map name (columns sch).
Proof.
  intros Hwf Hrun.
  pose proof (read_tuple_key_lookups _ _ _ _ _ Hwf Hrun) as Hkeys.
  destruct (read_tuple_key_shape _ _ _ _ _ Hwf Hrun)
    as (data & kvs & vs & p' & -> & Hall & Hvs & ->).
  pose proof (collect_values_length _ _ _ _ _ Hvs) as Hlv.
  pose proof (Forall2_length _ _ _ Hall) as Hlk.
  exists data, vs, p'. repeat split.
  - exact Hvs.
  - intros c Hin. destruct (Hkeys c Hin) as (v & H1 & H2).
    exists v. rewrite !tuple_get_name_lookup, H1, H2. now split.
  - apply Forall2_same_length_lookup_2; [now rewrite Hlv|].
    intros i c v Hc Hv. rewrite tuple_get_name_lookup.
    rewrite lookup_drop in Hc.
    rewrite (lookup_combine_distinct _ _ (Z.to_nat (key_column_count sch) + i) c v).
    + reflexivity.
    + apply Hwf.
    + exact Hc.
    + assert (Hk : length kvs = Z.to_nat (key_column_count sch)).
      { rewrite <- Hlk, length_take. destruct Hwf as [[Hk _] _]. lia. }
      rewrite lookup_app_r by lia. rewrite <- Hv. f_equal. lia.
  - apply map_fst_combine_names.
    rewrite length_app, <- Hlk, Hlv, <- length_app, take_drop. reflexivity.
Qed.

(** ** When the readers return *)

Lemma read_tuple_key_eq sch key d rd :
  read_tuple_key sch key (MBinary d :: rd)
  = match for_loop (Z.to_nat (to_int32 (Z.of_nat (length (columns sch))))) 0
            (merge_loop sch key)
            (tuple_new (to_int32 (Z.of_nat (length (columns sch)))),
             parser_new (to_int32 (Z.of_nat (length (columns sch))) - key_column_count sch) d)
    with
    | (Ok _, (res, _)) => (Ok res, rd)
    | (Throw e, _) => (Throw e, rd)
    end.
Proof.
  unfold read_tuple_key, bind at 1, read_binary.
  change (fun i : Z => column <- at_index (columns sch) i;;
            if i <? key_column_count sch
            then v <- tuple_get_name key (name column);;
                 on_fst (modify (fun res0 => tuple_set res0 (name column) v))
            else v <- on_snd (read_next_column (type column));;
                 on_fst (modify (fun res0 => tuple_set res0 (name column) v)))
    with (merge_loop sch key).
  now destruct (for_loop _ _ _ _) as [[[]|e] [res p]].
Qed.

Lemma get_next_at count data i f :
  data !! i = Some f ->
  Z.of_nat (length data) = count ->
  get_next (mk_parser count (Z.of_nat i) data)
  = (Ok f, mk_parser count (Z.of_nat i + 1) data).
Proof.
  intros Hf Hc. pose proof (lookup_lt_Some _ _ _ Hf) as Hlt.
  unfold get_next. cbn [p_index p_count p_data]. unfold binary_tuple in *.
  rewrite Nat2Z.id, Hf.
  replace (0 <=? Z.of_nat i) with true by lia.
  replace (Z.of_nat i <? count) with true by lia.
  replace (Z.of_nat (length data) =? count) with true by lia.
  reflexivity.
Qed.

Lemma read_next_column_readable t p f p' :
  get_next p = (Ok f, p') ->
  field_readable t f = true ->
  exists v, read_next_column t p = (Ok v, p') /\ (f = None -> v = VEmpty).
Proof.
  intros Hget Hr. unfold read_next_column, bind. rewrite Hget.
  destruct f as [bs|].
  - destruct t; try discriminate; eexists; (split; [reflexivity | discriminate]).
  - exists VEmpty. now split.
Qed.

Lemma read_columns_readable data count :
  Z.of_nat (length data) = count ->
  forall suf i,
    (forall k c, suf !! k = Some c ->
                 exists f, data !! (i + k)%nat = Some f /\ field_readable (type c) f = true) ->
    exists vs p',
      read_columns suf (mk_parser count (Z.of_nat i) data) = (Ok vs, p')
      /\ forall k c, suf !! k = Some c -> data !! (i + k)%nat = Some None ->
                     vs !! k = Some VEmpty.
Proof.
  intros Hc. induction suf as [|c suf IH]; intros i Hall.
  - exists [], (mk_parser count (Z.of_nat i) data). split; [reflexivity|].
    intros k c Hk. discriminate.
  - destruct (Hall 0%nat c eq_refl) as (f & Hf & Hr). rewrite Nat.add_0_r in Hf.
    destruct (read_next_column_readable (type c) _ f _ (get_next_at _ _ _ _ Hf Hc) Hr)
      as (v & Hv & Hnone).
    destruct (IH (S i)) as (vs & p' & Hvs & Hempty).
    { intros k c' Hk. destruct (Hall (S k) c' Hk) as (f' & Hf' & Hr').
      exists f'. split; [|exact Hr']. now replace (S i + k)%nat with (i + S k)%nat by lia. }
    exists (v :: vs), p'. split.
    + unfold read_columns in *. cbn [collect_values]. rewrite (bind_ok _ _ _ _ _ Hv).
      replace (Z.of_nat i + 1) with (Z.of_nat (S i)) by lia.
      now rewrite (bind_ok _ _ _ _ _ Hvs).
    + intros [|k] c' Hk Hd.
      * rewrite Nat.add_0_r in Hd. rewrite Hf in Hd. injection Hd as ->.
        now rewrite Hnone.
      * apply (Hempty k c' Hk). now replace (S i + k)%nat with (i + S k)%nat by lia.
Qed.

Lemma collect_key_values_total {St} key cs (s : St) :
  (forall c, In c cs -> tuple_lookup key (name c) <> None) ->
  exists kvs, collect_values (fun c => tuple_get_name key (name c)) cs s = (Ok kvs, s).
Proof.
  induction cs as [|c cs IH]; intros Hall.
  - now exists [].
  - destruct (tuple_lookup key (name c)) as [v|] eqn:Hv.
    2:{ exfalso. apply (Hall c); [now left | exact Hv]. }
    destruct IH as (kvs & Hkvs); [intros c' Hc'; apply Hall; now right|].
    exists (v :: kvs). cbn [collect_values].
    assert (Hget : tuple_get_name key (name c) s = (Ok v, s))
      by (now rewrite tuple_get_name_lookup, Hv).
    rewrite (bind_ok _ _ _ _ _ Hget). now rewrite (bind_ok _ _ _ _ _ Hkvs).
Qed.

(** The key-merging [read_tuple] returns when the key record has a field for
    each key column and the binary tuple a readable field for each value
    column. *)
Lemma read_tuple_key_total sch key data rest :
  schema_wf sch ->
  (forall c, In c (take (Z.to_nat (key_column_count sch)) (columns sch)) ->
             tuple_lookup key (name c) <> None) ->
  Forall2 (fun c f => field_readable (type c) f = true)
    (drop (Z.to_nat (key_column_count sch)) (columns sch)) data ->
  exists res, read_tuple_key sch key (MBinary data :: rest) = (Ok res, rest).
Proof.
  intros [[Hk Hl] Hd] Hkeys Hall. rewrite read_tuple_key_eq.
  rewrite to_int32_small by lia. rewrite Nat2Z.id.
  set (k := Z.to_nat (key_column_count sch)) in *.
  set (cols := columns sch) in *.
  pose proof (Forall2_length _ _ _ Hall) as Hld. rewrite length_drop in Hld.
  set (p0 := parser_new (Z.of_nat (length cols) - key_column_count sch) data).
  destruct (collect_key_values_total key (take k cols) p0 Hkeys) as (kvs & Hkvs).
  destruct (read_columns_readable data (Z.of_nat (length cols) - key_column_count sch)
              ltac:(lia) (drop k cols) 0%nat) as (vs & p' & Hvs & _).
  { intros i c Hc. destruct (Forall2_lookup_l _ _ _ _ _ Hall Hc) as (f & Hf & Hr).
    now exists f. }
  change (mk_parser (Z.of_nat (length cols) - key_column_count sch) (Z.of_nat 0) data)
    with p0 in Hvs.
  assert (Hlk : length (take k cols) = k) by (rewrite length_take; lia).
  assert (Hlv : length (drop k cols) = (length cols - k)%nat) by apply length_drop.
  assert (Hn : length cols = (k + (length cols - k))%nat) by lia.
  assert (Hloop : for_loop (length cols) 0 (merge_loop sch key)
                    (tuple_new (Z.of_nat (length cols)), p0)
                  = (Ok tt,
                     (set_columns (set_columns (tuple_new (Z.of_nat (length cols)))
                                     (take k cols) kvs) (drop k cols) vs, p'))).
  { assert (Hrun1 : for_loop k 0 (merge_loop sch key)
                      (tuple_new (Z.of_nat (length cols)), p0)
                    = (Ok tt, (set_columns (tuple_new (Z.of_nat (length cols)))
                                 (take k cols) kvs, p0))).
    { rewrite (for_loop_ext _ (fill_loop cols (fun c => tuple_get_name key (name c)))).
      2:{ intros j t Hj. apply merge_loop_key. apply Z.ltb_lt. lia. }
      rewrite <- Hlk at 1.
      apply fill_loop_run; [lia | now rewrite drop_0, Hlk | exact Hkvs]. }
    rewrite Hn at 1. rewrite for_loop_split, (bind_ok _ _ _ _ _ Hrun1).
    rewrite (for_loop_ext _ (fill_loop cols (fun c => read_next_column (type c)))).
    2:{ intros j t Hj. apply merge_loop_value. apply Z.ltb_ge. lia. }
    rewrite <- Hlv.
    apply fill_loop_run; [lia | | exact Hvs].
    replace (Z.to_nat (0 + Z.of_nat k)) with k by lia.
    apply take_ge. rewrite length_drop. lia. }
  rewrite Hloop. now eexists.
Qed.

(** ** The readers of the operations *)


(** The [reserve] of the multi-tuple readers, on the count they read. *)
Lemma reserve_int32 {St} count (s : St) :
  - 2 ^ 31 <= count < 2 ^ 31 ->
  reserve (to_size_t count) s
  = if count <? 0 then (Throw LengthError, s) else (Ok tt, s).
Proof.
  intros Hc. unfold reserve, to_size_t, vector_max_size.
  destruct (count <? 0) eqn:E.
  - rewrite <- (Z.mod_add count 1 (2 ^ 64)) by lia.
    rewrite Z.mod_small by lia.
    now replace (2 ^ 63 - 1 <? count + 1 * 2 ^ 64) with true by lia.
  - rewrite Z.mod_small by lia.
    now replace (2 ^ 63 - 1 <? count) with false by lia.
Qed.




Section readers.

Variable get_schema : M (table_impl * reader) (option schema).



Lemma opt_tuple_reader_eq record t response o t' rest :
  get_schema (t, response) = (Ok o, (t', rest)) ->
  (sch <- get_schema ;;
   match sch with
   | None => ret (POptTuple None)
   | Some sch => t <- on_snd (read_tuple_key sch record) ;; ret (POptTuple (Some t))
   end) (t, response)
  = match o with
    | None => (Ok (POptTuple None), (t', rest))
    | Some sch =>
        match read_tuple_key sch record rest with
        | (Ok res, rd) => (Ok (POptTuple (Some res)), (t', rd))
        | (Throw e, rd) => (Throw e, (t', rd))
        end
    end.
Proof.
  intros Hs. rewrite (bind_ok _ _ _ _ _ Hs). destruct o as [sch|]; [|reflexivity].
  unfold bind. rewrite on_snd_eq.
  now destruct (read_tuple_key sch record rest) as [[res|e] rd].
Qed.

(** C8.  The readers of get_and_upsert, get_and_replace and get_and_remove
    return no tuple, reading nothing more, when the response resolves to the
    null schema; otherwise they return what the key-merging [read_tuple]
    gives with the record of the request as the key, so that the returned
    record has, under each key column, the value the request record has.
    They do return a record, and leave the reader after the binary tuple,
    when the request record has a field for each key column and the tuple of
    the response a readable field for each value column. *)
Theorem get_and_readers_merge_key record rf t response o t' rest :
  In rf [get_and_upsert_reader_func get_schema record;
         get_and_replace_reader_func get_schema record;
         get_and_remove_reader_func get_schema record] ->
  get_schema (t, response) = (Ok o, (t', rest)) ->
  match o with
  | None => rf (t, response) = (Ok (POptTuple None), (t', rest))
  | Some sch =>
      rf (t, response)
      = match read_tuple_key sch record rest with
        | (Ok res, rd) => (Ok (POptTuple (Some res)), (t', rd))
        | (Throw e, rd) => (Throw e, (t', rd))
        end
      /\ (schema_wf sch ->
          forall res st,
            rf (t, response) = (Ok (POptTuple (Some res)), st) ->
            forall c, In c (take (Z.to_nat (key_column_count sch)) (columns sch)) ->
            exists v, tuple_get_name record (name c) tt = (Ok v, tt)
                      /\ tuple_get_name res (name c) tt = (Ok v, tt))
      /\ (schema_wf sch ->
          forall data rest',
            rest = MBinary data :: rest' ->
            (forall c, In c (take (Z.to_nat (key_column_count sch)) (columns sch)) ->
                       tuple_lookup record (name c) <> None) ->
            Forall2 (fun c f => field_readable (type c) f = true)
              (drop (Z.to_nat (key_column_count sch)) (columns sch)) data ->
            exists res,
              rf (t, response) = (Ok (POptTuple (Some res)), (t', rest'))
              /\ map fst res = map name (columns sch)
              /\ forall c, In c (take (Z.to_nat (key_column_count sch)) (columns sch)) ->
                           exists v, tuple_get_name record (name c) tt = (Ok v, tt)
                                     /\ tuple_get_name res (name c) tt = (Ok v, tt))
  end.
Proof.
  intros Hrf Hs.
  assert (Heq : rf (t, response)
                = match o with
                  | None => (Ok (POptTuple None), (t', rest))
                  | Some sch =>
                      match read_tuple_key sch record rest with
                      | (Ok res, rd) => (Ok (POptTuple (Some res)), (t', rd))
                      | (Throw e, rd) => (Throw e, (t', rd))
                      end
                  end).
  { destruct Hrf as [<-|[<-|[<-|[]]]]; apply (opt_tuple_reader_eq _ _ _ _ _ _ Hs). }
  destruct o as [sch|]; [|exact Heq]. split; [exact Heq|].
  assert (Hkeys : forall res rd,
             schema_wf sch -> read_tuple_key sch record rest = (Ok res, rd) ->
             forall c, In c (take (Z.to_nat (key_column_count sch)) (columns sch)) ->
             exists v, tuple_get_name record (name c) tt = (Ok v, tt)
                       /\ tuple_get_name res (name c) tt = (Ok v, tt)).
  { intros res rd Hwf Hrun c Hin.
    destruct (read_tuple_key_lookups _ _ _ _ _ Hwf Hrun c Hin) as (v & H1 & H2).
    exists v. rewrite !tuple_get_name_lookup, H1, H2. now split. }
  split.
  - intros Hwf res st Hres. rewrite Heq in Hres.
    destruct (read_tuple_key sch record rest) as [[res1|e] rd] eqn:Hrun; [|discriminate].
    injection Hres as <- _. now apply (Hkeys res1 rd).
  - intros Hwf data rest' -> Hpresent Hall.
    destruct (read_tuple_key_total sch record data rest' Hwf Hpresent Hall) as (res & Hrun).
    exists res. rewrite Heq, Hrun. split; [reflexivity|]. split.
    + destruct (read_tuple_key_shape _ _ _ _ _ Hwf Hrun)
        as (data' & kvs & vs & p' & _ & Hk & Hvs & ->).
      apply map_fst_combine_names.
      rewrite length_app, <- (Forall2_length _ _ _ Hk),
        (collect_values_length _ _ _ _ _ Hvs), <- length_app, take_drop.
      reflexivity.
    + now apply (Hkeys res rest').
Qed.

End readers.

(** ** The no-value bitset *)

Lemma bitset_new_test n k : bitset_test (bitset_new n) k = false.
Proof.
  unfold bitset_test, bitset_new.
  destruct (_ !! _) as [x|] eqn:E; [|reflexivity].
  apply lookup_replicate in E as [-> _]. apply Z.testbit_0_l.
Qed.

Lemma bitset_new_length n : 0 <= n -> Z.of_nat (length (bitset_new n)) = n.
Proof. intros H. unfold bitset_new. rewrite length_replicate. lia. Qed.

Lemma bitset_set_length i nv : length (snd (bitset_set i nv)) = length nv.
Proof. unfold bitset_set, modify. simpl. apply length_alter. Qed.

Lemma bitset_set_test nv i k :
  0 <= i -> 0 <= k -> i < 8 * Z.of_nat (length nv) ->
  bitset_test (snd (bitset_set i nv)) k = (k =? i) || bitset_test nv k.
Proof.
  intros Hi Hk Hlen. unfold bitset_set, modify, bitset_test. simpl.
  unfold bitset_span, bytes in *.
  assert (Hi8 : 0 <= i / 8) by (apply Z.div_pos; lia).
  assert (Hk8 : 0 <= k / 8) by (apply Z.div_pos; lia).
  pose proof (Z.mod_pos_bound i 8 ltac:(lia)) as Him.
  pose proof (Z.mod_pos_bound k 8 ltac:(lia)) as Hkm.
  pose proof (Z.div_mod i 8 ltac:(lia)) as Hid.
  pose proof (Z.div_mod k 8 ltac:(lia)) as Hkd.
  destruct (decide (Z.to_nat (k / 8) = Z.to_nat (i / 8))) as [Heq|Hne].
  - rewrite Heq, list_lookup_alter_eq.
    destruct (nv !! Z.to_nat (i / 8)) as [x|] eqn:E.
    + simpl. rewrite Z.lor_spec, Z.shiftl_1_l, Z.pow2_bits_eqb by lia.
      rewrite orb_comm. f_equal.
      destruct (k =? i) eqn:E1, (i mod 8 =? k mod 8) eqn:E2; try reflexivity; lia.
    + apply lookup_ge_None in E. lia.
  - rewrite list_lookup_alter_ne by congruence.
    destruct (k =? i) eqn:E1; [|reflexivity].
    apply Z.eqb_eq in E1. subst k. congruence.
Qed.

(** ** The value encodings *)

Lemma encode_le_length w : forall z, length (encode_le w z) = w.
Proof. induction w as [|w IH]; intros z; simpl; [reflexivity | now rewrite IH]. Qed.

Lemma decode_encode_le w : forall z,
  decode_le (encode_le w z) = z mod 2 ^ (8 * Z.of_nat w).
Proof.
  induction w as [|w IH]; intros z.
  - simpl. now rewrite Z.mod_1_r.
  - cbn [encode_le decode_le]. rewrite IH, Z.mod_mod by lia.
    replace (8 * Z.of_nat (S w)) with (8 + 8 * Z.of_nat w) by lia.
    rewrite Z.pow_add_r by lia. change (2 ^ 8) with 256.
    rewrite Z.rem_mul_r by lia. reflexivity.
Qed.

Lemma decode_unsigned_encode w z :
  0 <= z < 2 ^ (8 * Z.of_nat w) -> decode_unsigned w (encode_le w z) = z.
Proof.
  intros Hz. unfold decode_unsigned.
  rewrite firstn_all2 by (rewrite encode_le_length; lia).
  rewrite decode_encode_le, Z.mod_mod by lia. now apply Z.mod_small.
Qed.

Lemma decode_signed_encode w z :
  (0 < w)%nat ->
  - 2 ^ (8 * Z.of_nat w - 1) <= z < 2 ^ (8 * Z.of_nat w - 1) ->
  decode_signed w (encode_le w z) = z.
Proof.
  intros Hw Hz. unfold decode_signed.
  rewrite firstn_all2 by (rewrite encode_le_length; lia).
  rewrite decode_encode_le, Z.mod_mod by lia.
  set (m := 2 ^ (8 * Z.of_nat w)).
  assert (Hm : m = 2 * 2 ^ (8 * Z.of_nat w - 1)).
  { unfold m. rewrite <- Z.pow_succ_r by lia. f_equal. lia. }
  assert (Hp : 0 < 2 ^ (8 * Z.of_nat w - 1)) by (apply Z.pow_pos_nonneg; lia).
  replace (m / 2) with (2 ^ (8 * Z.of_nat w - 1))
    by (apply (Z.div_unique m 2 _ 0); lia).
  destruct (Z_lt_dec z 0) as [Hneg|Hpos].
  - replace (z mod m) with (z + m).
    + destruct (z + m <? 2 ^ (8 * Z.of_nat w - 1)) eqn:E; lia.
    + rewrite <- (Z.mod_small (z + m) m) by lia.
      replace (z + m) with (z + 1 * m) by lia. now rewrite Z.mod_add by lia.
  - rewrite Z.mod_small by lia.
    destruct (z <? 2 ^ (8 * Z.of_nat w - 1)) eqn:E; lia.
Qed.

Lemma decode_encode_be w z :
  0 <= z < 2 ^ (8 * Z.of_nat w) -> decode_be w (encode_be w z) = z.
Proof.
  intros Hz. unfold decode_be, encode_be.
  rewrite firstn_all2 by (rewrite length_rev, encode_le_length; lia).
  rewrite rev_involutive. now apply decode_unsigned_encode.
Qed.

Lemma decode_encode_uuid u :
  0 <= msb u < 2 ^ 64 -> 0 <= lsb u < 2 ^ 64 -> decode_uuid (encode_uuid u) = u.
Proof.
  intros Hm Hl. unfold decode_uuid, encode_uuid.
  assert (Hlen : length (encode_be 8 (msb u)) = 8%nat).
  { unfold encode_be. now rewrite length_rev, encode_le_length. }
  rewrite take_app_length' by exact Hlen.
  rewrite drop_app_length' by exact Hlen.
  rewrite !decode_encode_be by (change (8 * Z.of_nat 8) with 64; lia).
  now destruct u.
Qed.

Lemma decode_encode_string s : decode_string (encode_string s) = s.
Proof.
  unfold decode_string, encode_string. rewrite map_map.
  rewrite (map_ext _ (fun a => a)), map_id.
  - apply string_of_list_ascii_of_string.
  - intros a. now rewrite N2Z.id, ascii_N_embedding.
Qed.

(** ** [pack_tuple] *)

Lemma pack_tuple_eq sch tuple key_only no_value :
  pack_tuple sch tuple key_only no_value
  = let '(r, (_, no_value')) :=
      (on_fst builder_start ;;;
       for_loop (Z.to_nat (tuple_count sch key_only)) 0 (claim_loop sch tuple) ;;;
       on_fst builder_layout ;;;
       for_loop (Z.to_nat (tuple_count sch key_only)) 0 (append_loop sch tuple) ;;;
       on_fst builder_build)
        (builder_new (tuple_count sch key_only), no_value) in
    (r, no_value').
Proof. reflexivity. Qed.

Lemma pack_tuple_inv sch tuple key_only nv0 data nv :
  pack_tuple sch tuple key_only nv0 = (Ok data, nv) ->
  exists b1 nv1 b2,
    for_loop (Z.to_nat (tuple_count sch key_only)) 0 (claim_loop sch tuple)
      (builder_new (tuple_count sch key_only), nv0) = (Ok tt, (b1, nv1))
    /\ for_loop (Z.to_nat (tuple_count sch key_only)) 0 (append_loop sch tuple)
         (b1, nv1) = (Ok tt, (b2, nv))
    /\ data = b_elements b2.
Proof.
  rewrite pack_tuple_eq. unfold bind at 1. rewrite on_fst_eq. cbn [fst snd builder_start modify builder_new b_count].
  fold (builder_new (tuple_count sch key_only)).
  unfold bind at 1.
  destruct (for_loop _ 0 (claim_loop sch tuple) _) as [[[]|e] [b1 nv1]] eqn:E1;
    [|discriminate].
  unfold bind at 1. rewrite on_fst_eq. cbn [fst snd builder_layout ret].
  unfold bind at 1.
  destruct (for_loop _ 0 (append_loop sch tuple) _) as [[[]|e] [b2 nv2]] eqn:E2;
    [|discriminate].
  rewrite on_fst_eq. cbn. intros H. injection H as <- <-.
  now exists b1, nv1, b2.
Qed.

Lemma pack_tuple_run sch tuple key_only nv0 b1 nv1 b2 nv :
  for_loop (Z.to_nat (tuple_count sch key_only)) 0 (claim_loop sch tuple)
    (builder_new (tuple_count sch key_only), nv0) = (Ok tt, (b1, nv1)) ->
  for_loop (Z.to_nat (tuple_count sch key_only)) 0 (append_loop sch tuple)
    (b1, nv1) = (Ok tt, (b2, nv)) ->
  pack_tuple sch tuple key_only nv0 = (Ok (b_elements b2), nv).
Proof.
  intros E1 E2. rewrite pack_tuple_eq. unfold bind at 1. rewrite on_fst_eq.
  cbn [fst snd builder_start modify builder_new b_count].
  fold (builder_new (tuple_count sch key_only)).
  unfold bind at 1. rewrite E1.
  unfold bind at 1. rewrite on_fst_eq. cbn [fst snd builder_layout ret].
  unfold bind at 1. rewrite E2. rewrite on_fst_eq. reflexivity.
Qed.

(** [tuple.get(idx)] does not depend on the state it runs in. *)
Lemma tuple_get_cases t idx :
  (exists v, forall St (s : St), tuple_get t idx s = (Ok v, s))
  \/ (forall St (s : St), tuple_get t idx s = (Throw FieldNotFound, s)).
Proof.
  unfold tuple_get. destruct (idx <? 0); [now right|].
  destruct (t !! Z.to_nat idx) as [[k v]|]; [left; now exists v | now right].
Qed.

Ltac column_cases Hget typ :=
  destruct typ; simpl;
  unfold get_int8, get_int16, get_int32, get_int64, get_float, get_double,
    get_uuid, get_string, get_binary, bind, throw;
  try rewrite Hget.

Lemma claim_column_keeps typ idx r b b' :
  claim_column typ idx r b = (Ok tt, b') -> b_elements b' = b_elements b.
Proof.
  destruct (tuple_get_cases r idx) as [[v Hget]|Hget];
    column_cases Hget typ; try discriminate;
    destruct v; simpl; intros H; try discriminate; now injection H as <-.
Qed.

Lemma append_column_ok_inv typ idx r b b' :
  append_column typ idx r b = (Ok tt, b') ->
  exists v bs,
    (forall St (s : St), tuple_get r idx s = (Ok v, s))
    /\ encode_value v = Some bs
    /\ b' = mk_builder (b_count b) (b_claimed b) (b_elements b ++ [Some bs]).
Proof.
  destruct (tuple_get_cases r idx) as [[v Hget]|Hget];
    column_cases Hget typ; try discriminate;
    destruct v; simpl; intros H; try discriminate; injection H as <-;
    eexists _, _; (split; [exact Hget|]); split; reflexivity.
Qed.

Lemma claim_column_fits typ idx r v b :
  (forall St (s : St), tuple_get r idx s = (Ok v, s)) ->
  value_has_type v typ = true ->
  exists b', claim_column typ idx r b = (Ok tt, b') /\ b_elements b' = b_elements b.
Proof.
  intros Hget Hty.
  column_cases Hget typ; destruct v; try discriminate; simpl;
    eexists; split; reflexivity.
Qed.

Lemma append_column_fits typ idx r v b :
  (forall St (s : St), tuple_get r idx s = (Ok v, s)) ->
  value_has_type v typ = true ->
  append_column typ idx r b
  = (Ok tt, mk_builder (b_count b) (b_claimed b) (b_elements b ++ [encode_value v])).
Proof.
  intros Hget Hty.
  column_cases Hget typ; destruct v; try discriminate; reflexivity.
Qed.

Lemma claim_loop_step sch r j b nv b' nv' :
  claim_loop sch r j (b, nv) = (Ok tt, (b', nv')) ->
  nv' = nv /\ b_elements b' = b_elements b.
Proof.
  unfold claim_loop. intros H.
  apply bind_ok_inv in H as (col & s1 & Hat & H).
  apply at_index_ok_inv in Hat as (_ & _ & ->).
  destruct (0 <=? column_ordinal r (name col)); rewrite on_fst_eq in H.
  - destruct (claim_column _ _ _ b) as [r0 b0] eqn:E. simpl in H.
    injection H as -> <- <-. split; [reflexivity|]. eapply claim_column_keeps, E.
  - simpl in H. injection H as <- <-. now split.
Qed.

Lemma column_fits_present r col v :
  column_fits r col = true ->
  tuple_lookup r (name col) = Some v ->
  value_has_type v (type col) = true.
Proof. unfold column_fits. intros H El. now rewrite El in H. Qed.

Lemma claim_loop_total sch r j b nv col :
  0 <= j -> columns sch !! Z.to_nat j = Some col -> column_fits r col = true ->
  exists b', claim_loop sch r j (b, nv) = (Ok tt, (b', nv))
             /\ b_elements b' = b_elements b.
Proof.
  intros Hj Hcol Hfit. unfold claim_loop.
  rewrite (bind_ok _ _ _ _ _ (at_index_lookup _ _ _ _ Hj Hcol)).
  destruct (tuple_lookup r (name col)) as [v|] eqn:El.
  - destruct (column_ordinal_some _ _ _ El) as [Ho Hget].
    destruct (0 <=? column_ordinal r (name col)) eqn:E; [|lia].
    destruct (claim_column_fits (type col) _ r v b Hget) as (b' & Hc & He).
    { eapply column_fits_present; eauto. }
    exists b'. rewrite on_fst_eq, Hc. now split.
  - rewrite (column_ordinal_none _ _ El). simpl. rewrite on_fst_eq. simpl.
    eexists. split; reflexivity.
Qed.

Lemma absent_at_lookup r cols k c :
  0 <= k -> cols !! Z.to_nat k = Some c ->
  absent_at r cols k = (column_ordinal r (name c) <? 0).
Proof. intros _ H. unfold absent_at. now rewrite H. Qed.

Lemma append_loop_step sch r nv0 j b nv b' nv' :
  0 <= j -> j < 8 * Z.of_nat (length nv0) ->
  packed_upto sch r nv0 j (b, nv) ->
  append_loop sch r j (b, nv) = (Ok tt, (b', nv')) ->
  packed_upto sch r nv0 (j + 1) (b', nv').
Proof.
  unfold packed_upto.
  intros Hj Hw (Hel & Hle & Hsome & Hlen & Hbits) H. simpl in Hel, Hlen, Hbits.
  unfold append_loop in H.
  apply bind_ok_inv in H as (col & s1 & Hat & H).
  apply at_index_ok_inv in Hat as (_ & Hcol & ->).
  pose proof (lookup_lt_Some _ _ _ Hcol) as Hlt.
  replace (Z.to_nat (j + 1)) with (S (Z.to_nat j)) by lia.
  pose proof (absent_at_lookup r _ _ _ Hj Hcol) as Habs.
  destruct (0 <=? column_ordinal r (name col)) eqn:Eo.
  - rewrite on_fst_eq in H.
    destruct (append_column _ _ _ b) as [r0 b0] eqn:E. simpl in H.
    injection H as -> <- <-.
    apply append_column_ok_inv in E as (v & bs & Hget & Henc & ->).
    assert (Hf : field_of r col = Some bs).
    { unfold field_of, value_or_empty.
      destruct (tuple_lookup r (name col)) as [v'|] eqn:El.
      - destruct (column_ordinal_some _ _ _ El) as [_ Hget'].
        specialize (Hget unit tt). rewrite Hget' in Hget. now injection Hget as ->.
      - apply column_ordinal_none in El. lia. }
    cbn [fst snd b_elements]. repeat split.
    + rewrite (take_S_r _ _ _ Hcol), map_app, <- Hel. cbn [map]. now rewrite Hf.
    + lia.
    + intros k c Hk Hc Ho. destruct (decide (k = Z.to_nat j)) as [->|Hne].
      * rewrite Hcol in Hc. injection Hc as <-. now rewrite Hf.
      * apply (Hsome k c); [lia | exact Hc | exact Ho].
    + exact Hlen.
    + intros k Hk. rewrite (Hbits k Hk). f_equal.
      destruct (decide (k = j)) as [->|Hne].
      * rewrite Habs. replace (column_ordinal r (name col) <? 0) with false by lia.
        now rewrite !andb_false_r.
      * f_equal. lia.
  - apply bind_ok_inv in H as ([] & s2 & Happ & Hset).
    rewrite on_fst_eq in Happ. simpl in Happ. injection Happ as <-.
    rewrite on_snd_eq in Hset. simpl fst in Hset. simpl snd in Hset.
    injection Hset as <- <-.
    assert (Hn : tuple_lookup r (name col) = None).
    { apply column_ordinal_neg_iff. lia. }
    assert (Hf : field_of r col = None).
    { unfold field_of, value_or_empty. now rewrite Hn. }
    cbn [fst snd b_elements]. repeat split.
    + rewrite (take_S_r _ _ _ Hcol), map_app, <- Hel. cbn [map]. now rewrite Hf.
    + lia.
    + intros k c Hk Hc Ho. destruct (decide (k = Z.to_nat j)) as [->|Hne].
      * rewrite Hcol in Hc. injection Hc as <-. lia.
      * apply (Hsome k c); [lia | exact Hc | exact Ho].
    + exact (eq_trans (bitset_set_length j nv) Hlen).
    + intros k Hk.
      pose proof (bitset_set_test nv j k Hj Hk ltac:(lia)) as Hset.
      unfold bitset_set, modify in Hset. simpl in Hset. rewrite Hset, (Hbits k Hk).
      destruct (decide (k = j)) as [->|Hne].
      * rewrite Habs, Z.eqb_refl.
        replace (column_ordinal r (name col) <? 0) with true by lia.
        replace (j <? j + 1) with true by lia. simpl. now rewrite orb_true_r.
      * replace (k =? j) with false by lia. simpl. f_equal. f_equal. lia.
Qed.

Lemma append_loop_total sch r j s col :
  0 <= j -> columns sch !! Z.to_nat j = Some col -> column_fits r col = true ->
  exists s', append_loop sch r j s = (Ok tt, s').
Proof.
  intros Hj Hcol Hfit. destruct s as [b nv]. unfold append_loop.
  rewrite (bind_ok _ _ _ _ _ (at_index_lookup _ _ _ _ Hj Hcol)).
  destruct (tuple_lookup r (name col)) as [v|] eqn:El.
  - destruct (column_ordinal_some _ _ _ El) as [Ho Hget].
    destruct (0 <=? column_ordinal r (name col)) eqn:E; [|lia].
    rewrite on_fst_eq, (append_column_fits (type col) _ r v b Hget).
    + eexists. reflexivity.
    + eapply column_fits_present; eauto.
  - rewrite (column_ordinal_none _ _ El). simpl.
    unfold bind. rewrite on_fst_eq. simpl. rewrite on_snd_eq. simpl.
    eexists. reflexivity.
Qed.

Lemma pack_tuple_ok sch r key_only nv0 data nv :
  tuple_count sch key_only <= 8 * Z.of_nat (length nv0) ->
  pack_tuple sch r key_only nv0 = (Ok data, nv) ->
  exists b2,
    data = b_elements b2
    /\ packed_upto sch r nv0 (Z.of_nat (Z.to_nat (tuple_count sch key_only))) (b2, nv).
Proof.
  intros Hw H. apply pack_tuple_inv in H as (b1 & nv1 & b2 & H1 & H2 & ->).
  exists b2. split; [reflexivity|].
  apply (for_loop_invariant (fun _ s => snd s = nv0 /\ b_elements (fst s) = [])) in H1.
  - destruct H1 as [Hnv Hb]. simpl in Hnv, Hb. subst nv1.
    apply (for_loop_invariant (packed_upto sch r nv0)) in H2; [exact H2 | |].
    + unfold packed_upto. simpl. rewrite Hb. repeat split; try lia.
      intros k Hk. replace (k <? 0) with false by lia. now rewrite orb_false_r.
    + intros j [b nv'] [b' nv''] Hj. apply append_loop_step; lia.
  - now split.
  - intros j [b nv'] [b' nv''] _ [Hnv Hb] Hstep. simpl in Hnv, Hb.
    apply claim_loop_step in Hstep as [-> He]. simpl. split; congruence.
Qed.

Lemma record_fits_column sch r key_only j col :
  record_fits sch r key_only = true ->
  (j < Z.to_nat (tuple_count sch key_only))%nat ->
  columns sch !! j = Some col ->
  column_fits r col = true.
Proof.
  intros Hfit Hj Hcol. unfold record_fits in Hfit.
  apply (proj1 (forallb_forall _ _) Hfit). apply list_elem_of_In.
  apply list_elem_of_lookup. exists j. unfold tuple_columns.
  now rewrite lookup_take_lt by exact Hj.
Qed.

Lemma pack_tuple_total sch r key_only nv0 :
  schema_counts sch ->
  record_fits sch r key_only = true ->
  exists data nv, pack_tuple sch r key_only nv0 = (Ok data, nv).
Proof.
  intros Hc Hfit. destruct (tuple_count_wf sch key_only Hc) as [_ Hn].
  assert (Hcol : forall j, 0 <= j < 0 + Z.of_nat (Z.to_nat (tuple_count sch key_only)) ->
                           exists col, columns sch !! Z.to_nat j = Some col
                                       /\ column_fits r col = true).
  { intros j Hj. destruct (lookup_lt_is_Some_2 (columns sch) (Z.to_nat j)) as [col Hcol];
      [lia|]. exists col. split; [exact Hcol|].
    eapply record_fits_column; eauto. lia. }
  destruct (for_loop_total (fun _ _ => True) (claim_loop sch r)
              (Z.to_nat (tuple_count sch key_only)) 0
              (builder_new (tuple_count sch key_only), nv0) I) as ([b1 nv1] & H1 & _).
  { intros j [b nv] Hj _. destruct (Hcol j Hj) as (col & Hl & Hf).
    destruct (claim_loop_total sch r j b nv col) as (b' & Hrun & _); [lia | exact Hl | exact Hf |].
    eexists. split; [exact Hrun | exact I]. }
  destruct (for_loop_total (fun _ _ => True) (append_loop sch r)
              (Z.to_nat (tuple_count sch key_only)) 0 (b1, nv1) I) as ([b2 nv2] & H2 & _).
  { intros j s Hj _. destruct (Hcol j Hj) as (col & Hl & Hf).
    destruct (append_loop_total sch r j s col) as (s' & Hrun); [lia | exact Hl | exact Hf |].
    exists s'. split; [exact Hrun | exact I]. }
  exists (b_elements b2), nv2. eapply pack_tuple_run; eauto.
Qed.

(** C4.  For a no-value bitset handed to [pack_tuple] cleared and wide
    enough for the columns written, as [write_tuple] hands it: when
    [pack_tuple] returns, bit [i] is set exactly when the record has no field
    for column [i], that is [column_ordinal] is negative for its name; the
    field of the tuple is absent where the bit is set, and holds a payload,
    possibly of no bytes, where it is not. *)
Theorem no_value_bitset_correct sch tuple key_only no_value0 data no_value i :
  (forall k, bitset_test no_value0 k = false) ->
  tuple_count sch key_only <= 8 * Z.of_nat (length no_value0) ->
  pack_tuple sch tuple key_only no_value0 = (Ok data, no_value) ->
  0 <= i < tuple_count sch key_only ->
  exists col,
    columns sch !! Z.to_nat i = Some col
    /\ (bitset_test no_value i = true <-> column_ordinal tuple (name col) < 0)
    /\ (bitset_test no_value i = true -> data !! Z.to_nat i = Some None)
    /\ (bitset_test no_value i = false -> exists bs, data !! Z.to_nat i = Some (Some bs)).
Proof.
  intros Hclear Hw Hrun Hi.
  destruct (pack_tuple_ok _ _ _ _ _ _ Hw Hrun) as (b2 & -> & Hp).
  unfold packed_upto in Hp. cbn [fst snd] in Hp.
  rewrite Nat2Z.id, Z2Nat.id in Hp by lia.
  destruct Hp as (Hel & Hle & Hsome & _ & Hbits).
  destruct (lookup_lt_is_Some_2 (columns sch) (Z.to_nat i)) as [col Hcol]; [lia|].
  exists col. split; [exact Hcol|].
  assert (Hbit : bitset_test no_value i = (column_ordinal tuple (name col) <? 0)).
  { rewrite Hbits, Hclear by lia. simpl.
    replace (i <? tuple_count sch key_only) with true by lia.
    simpl. apply absent_at_lookup; [lia | exact Hcol]. }
  assert (Hdata : b_elements b2 !! Z.to_nat i = Some (field_of tuple col)).
  { rewrite Hel, list_lookup_fmap, lookup_take_lt by lia. now rewrite Hcol. }
  unfold binary_tuple in *. rewrite Hbit, Hdata. repeat split.
  - intros H. lia.
  - intros H. lia.
  - intros H. f_equal. unfold field_of, value_or_empty.
    replace (tuple_lookup tuple (name col)) with (@None value); [reflexivity|].
    symmetry. apply column_ordinal_neg_iff. lia.
  - intros H. destruct (field_of tuple col) as [bs|] eqn:E; [now exists bs|].
    exfalso. apply (Hsome (Z.to_nat i) col); [lia | exact Hcol | lia | exact E].
Qed.

(** ** Writing a tuple and reading it back *)

Lemma value_or_empty_respects r a b :
  name_eqb a b = true -> value_or_empty r a = value_or_empty r b.
Proof. intros H. unfold value_or_empty. now rewrite (tuple_lookup_respects r a b H). Qed.

Lemma set_columns_lookup r : forall cs res m,
  (exists c, In c cs /\ name_eqb (name c) m = true)
  \/ tuple_lookup res m = Some (value_or_empty r m) ->
  tuple_lookup (set_columns res cs (map (fun c => value_or_empty r (name c)) cs)) m
  = Some (value_or_empty r m).
Proof.
  induction cs as [|c cs IH]; intros res m H.
  - destruct H as [(c & [] & _)|H]. exact H.
  - unfold set_columns. simpl.
    apply (IH (tuple_set res (name c) (value_or_empty r (name c))) m).
    destruct H as [(c' & [<-|Hin] & Hm)|H].
    + right. rewrite tuple_lookup_set, Hm. f_equal. now apply value_or_empty_respects.
    + left. now exists c'.
    + right. rewrite tuple_lookup_set.
      destruct (name_eqb (name c) m) eqn:E; [|exact H].
      f_equal. now apply value_or_empty_respects.
Qed.

Ltac split_range H :=
  repeat match type of H with
         | (_ && _) = true => let H' := fresh H in apply andb_prop in H as [H H']; split_range H'
         end;
  repeat match goal with
         | Hb : (_ <=? _) = true |- _ => apply Z.leb_le in Hb
         | Hb : (_ <? _) = true |- _ => apply Z.ltb_lt in Hb
         end.

(** A field written for a value of the type of the column reads back as the
    value; an absent field reads back as the empty value. *)
Lemma read_next_column_field typ v p p' :
  get_next p = (Ok (encode_value v), p') ->
  v = VEmpty \/ value_has_type v typ = true ->
  read_next_column typ p = (Ok v, p').
Proof.
  intros Hget Hv. unfold read_next_column, bind. rewrite Hget.
  destruct Hv as [->|Hty]; [reflexivity|].
  destruct typ, v; try discriminate; cbn [encode_value]; unfold ret; repeat f_equal;
    cbn [value_has_type] in Hty; split_range Hty.
  - apply decode_signed_encode; [lia | change (8 * Z.of_nat 1 - 1) with 7; lia].
  - apply decode_signed_encode; [lia | change (8 * Z.of_nat 2 - 1) with 15; lia].
  - apply decode_signed_encode; [lia | change (8 * Z.of_nat 4 - 1) with 31; lia].
  - apply decode_signed_encode; [lia | change (8 * Z.of_nat 8 - 1) with 63; lia].
  - apply decode_unsigned_encode. change (8 * Z.of_nat 4) with 32. lia.
  - apply decode_unsigned_encode. change (8 * Z.of_nat 8) with 64. lia.
  - apply decode_encode_uuid; lia.
  - apply decode_encode_string.
Qed.

Lemma read_columns_fields r cs count :
  count = Z.of_nat (length cs) ->
  forallb (column_fits r) cs = true ->
  forall suf pre,
    cs = pre ++ suf ->
    read_columns suf (mk_parser count (Z.of_nat (length pre)) (map (field_of r) cs))
    = (Ok (map (fun c => value_or_empty r (name c)) suf),
       mk_parser count (Z.of_nat (length cs)) (map (field_of r) cs)).
Proof.
  intros Hcount Hfit. induction suf as [|c suf IH]; intros pre Hcs.
  - rewrite app_nil_r in Hcs. subst pre. reflexivity.
  - assert (Hc : cs !! length pre = Some c).
    { rewrite Hcs. now rewrite list_lookup_middle. }
    assert (Hlt : (length pre < length cs)%nat) by (eapply lookup_lt_Some, Hc).
    assert (Hnext : get_next (mk_parser count (Z.of_nat (length pre)) (map (field_of r) cs))
                    = (Ok (field_of r c),
                       mk_parser count (Z.of_nat (length pre) + 1) (map (field_of r) cs))).
    { unfold get_next. cbn [p_index p_count p_data]. unfold binary_tuple.
      rewrite length_map, Nat2Z.id.
      change (map (field_of r) cs) with (field_of r <$> cs).
      rewrite list_lookup_fmap, Hc. cbn [fmap option_fmap option_map].
      replace (0 <=? Z.of_nat (length pre)) with true by lia.
      replace (Z.of_nat (length pre) <? count) with true by lia.
      replace (Z.of_nat (length cs) =? count) with true by lia.
      reflexivity. }
    unfold read_columns. cbn [collect_values]. unfold bind at 1.
    rewrite (read_next_column_field (type c) (value_or_empty r (name c)) _ _ Hnext).
    + fold (read_columns suf). unfold bind at 1.
      replace (Z.of_nat (length pre) + 1) with (Z.of_nat (length (pre ++ [c])))
        by (rewrite length_app; simpl; lia).
      rewrite (IH (pre ++ [c])) by (now rewrite <- app_assoc).
      reflexivity.
    + assert (Hfc : column_fits r c = true).
      { apply (proj1 (forallb_forall _ _) Hfit). apply list_elem_of_In.
        eapply list_elem_of_lookup_2, Hc. }
      unfold column_fits in Hfc. unfold value_or_empty.
      destruct (tuple_lookup r (name c)); [now right | now left].
Qed.

Lemma bytes_for_bits_wide n :
  0 <= n -> n <= 8 * Z.of_nat (length (bitset_new (bytes_for_bits n))).
Proof.
  intros Hn. unfold bytes_for_bits.
  assert (H8 : 0 <= (n + 7) / 8) by (apply Z.div_pos; lia).
  rewrite bitset_new_length by exact H8.
  pose proof (Z.div_mod (n + 7) 8 ltac:(lia)).
  pose proof (Z.mod_pos_bound (n + 7) 8 ltac:(lia)). lia.
Qed.

Lemma write_tuple_packed sch r key_only w data nv :
  pack_tuple sch r key_only
    (bitset_new (bytes_for_bits
       (if key_only then key_column_count sch else Z.of_nat (length (columns sch)))))
  = (Ok data, nv) ->
  write_tuple sch r key_only w = (Ok tt, w ++ [MBitset nv; MBinary data]).
Proof.
  intros H. unfold write_tuple. rewrite H.
  unfold bind, write_bitset, write_binary, write, modify. now rewrite <- app_assoc.
Qed.

(** C3.  For a schema whose key columns are a prefix of its columns and a
    record whose fields, for the columns written, are of the types the
    columns declare: [write_tuple] writes the no-value bitset and then the
    binary tuple, and [read_tuple], in the same mode, on that binary tuple
    returns a record that has, for every column written, the value the
    record has for it, or the empty value when the record has no such field.
    The columns written are all of them, or the key columns with
    [key_only]. *)
Theorem write_read_round_trip sch r key_only w rest :
  schema_counts sch ->
  record_fits sch r key_only = true ->
  exists no_value data res,
    write_tuple sch r key_only w = (Ok tt, w ++ [MBitset no_value; MBinary data])
    /\ read_tuple sch key_only (MBinary data :: rest) = (Ok res, rest)
    /\ forall col, In col (tuple_columns sch key_only) ->
         (column_ordinal r (name col) < 0 ->
          tuple_get_name res (name col) tt = (Ok VEmpty, tt))
         /\ (0 <= column_ordinal r (name col) ->
             exists v, tuple_get_name r (name col) tt = (Ok v, tt)
                       /\ tuple_get_name res (name col) tt = (Ok v, tt)).
Proof.
  intros Hc Hfit. destruct (tuple_count_wf sch key_only Hc) as [Hcnt Hrange].
  set (raw := if key_only then key_column_count sch else Z.of_nat (length (columns sch))) in *.
  set (cs := tuple_columns sch key_only).
  assert (Hlen : length cs = Z.to_nat (tuple_count sch key_only)).
  { unfold cs, tuple_columns. rewrite length_take. lia. }
  destruct (pack_tuple_total sch r key_only (bitset_new (bytes_for_bits raw)) Hc Hfit)
    as (data & nv & Hpack).
  assert (Hdata : data = map (field_of r) cs).
  { destruct (pack_tuple_ok _ _ _ _ _ _ ltac:(rewrite Hcnt; apply bytes_for_bits_wide; lia) Hpack)
      as (b2 & -> & Hel & _).
    cbn [fst] in Hel. now rewrite Nat2Z.id in Hel. }
  pose proof (read_columns_fields r cs (tuple_count sch key_only) ltac:(lia) Hfit cs []
                eq_refl) as Hread.
  cbn [length] in Hread. change (Z.of_nat 0) with 0 in Hread.
  fold (parser_new (tuple_count sch key_only) (map (field_of r) cs)) in Hread.
  pose proof (fill_loop_run (columns sch) (fun c => read_next_column (type c)) cs 0
                (tuple_new (tuple_count sch key_only)) _ _ _ ltac:(lia)
                ltac:(rewrite Hlen; change (Z.to_nat 0) with 0%nat; unfold cs, tuple_columns;
                      now rewrite drop_0)
                Hread) as Hloop.
  rewrite Hlen in Hloop. rewrite <- Hdata in Hloop.
  exists nv, data, (set_columns (tuple_new (tuple_count sch key_only)) cs
                      (map (fun c => value_or_empty r (name c)) cs)).
  split; [now apply write_tuple_packed|].
  split; [eapply read_tuple_run, Hloop|].
  intros col Hin.
  assert (Hlook : tuple_lookup
                    (set_columns (tuple_new (tuple_count sch key_only)) cs
                       (map (fun c => value_or_empty r (name c)) cs)) (name col)
                  = Some (value_or_empty r (name col))).
  { apply set_columns_lookup. left. exists col. split; [exact Hin | apply name_eqb_refl]. }
  rewrite !tuple_get_name_lookup, Hlook. unfold value_or_empty. split.
  - intros Ho. apply column_ordinal_neg_iff in Ho. now rewrite Ho.
  - intros Ho. destruct (tuple_lookup r (name col)) as [v|] eqn:El.
    + now exists v.
    + apply column_ordinal_none in El. lia.
Qed.

(** * The statements at concrete inputs *)

(** A get on a table that holds the schema sends the header, the cleared
    no-value bitset and the key tuple; the response, which carries the value
    columns only, is merged with the key. *)
Example get_hit_scenario :
  let '(r, w1) := get_async schema_read_columns get_schema_by_version None person_key
                    (UserCallback 0) seeded_world in
  r = Ok tt
  /\ w_sent w1
     = [(TUPLE_GET,
         [MUuid person_table_id; MNil; MInt32 1; MBitset [0]; MBinary key_tuple_42])]
  /\ w_calls w1 = []
  /\ match w_pending w1 with
     | [h] =>
         w_calls (snd (process_response get_schema_by_version h
                         [MInt32 1; MBinary [Some (encode_string "alice")]] w1))
         = [(0%nat,
             Ok (POptTuple (Some [("id"%string, VInt64 42);
                                  ("name"%string, VString "alice")])))]
     | _ => False
     end.
Proof. vm_compute. repeat split. Qed.

(** A get on a table that has no schema yet asks for the schemas first, and
    goes on when they arrive. *)
Example get_miss_scenario :
  let w1 := snd (get_async schema_read_columns get_schema_by_version None person_key
                   (UserCallback 0) fresh_world) in
  w_sent w1 = [(SCHEMAS_GET, [MUuid person_table_id; MNil])]
  /\ match w_pending w1 with
     | [h] =>
         let w2 := snd (process_response get_schema_by_version h
                          [MMap [person_schema_kv]] w1) in
         map fst (w_sent w2) = [SCHEMAS_GET; TUPLE_GET] /\ w_calls w2 = []
     | _ => False
     end.
Proof. vm_compute. repeat split. Qed.

(** An upsert over a column of a type outside the supported set throws from
    the writer closure, before anything is sent. *)
Example unsupported_type_scenario :
  upsert_async schema_read_columns get_schema_by_version None priced_record
    (UserCallback 0)
    (mk_world (snd (add_schema priced_schema (table_new person_table_id))) [] [] [])
  = (Throw (TypeNotSupported 7),
     mk_world (snd (add_schema priced_schema (table_new person_table_id))) [] [] []).
Proof. reflexivity. Qed.

(** C1, as the spec has it, fails: [upsert_async] called with a transaction
    does not invoke the callback, with an error or otherwise. *)
Lemma transaction_gate_callback_not_invoked :
  ~ (exists e,
       In (0%nat, Throw e)
          (w_calls (snd (upsert_async schema_read_columns get_schema_by_version
                           (Some (Transaction 1)) person_record (UserCallback 0)
                           seeded_world)))).
Proof. intros [e []]. Qed.

(** C2, as the spec has it, fails: in key-only mode the record read for a
    schema of two columns, one of them the key, has one field, not two. *)
Lemma read_tuple_key_only_size :
  ~ (forall res rd',
       read_tuple person_schema true [MBinary key_tuple_42] = (Ok res, rd') ->
       column_count res = Z.of_nat (length (columns person_schema))).
Proof.
  intros H. specialize (H [("id"%string, VInt64 42)] [] eq_refl). discriminate H.
Qed.

Lemma read_tuple_columns_witness :
  exists data vs p',
    [MBinary key_tuple_42] = MBinary data :: []
    /\ read_columns (tuple_columns person_schema true)
         (parser_new (tuple_count person_schema true) data) = (Ok vs, p')
    /\ [("id"%string, VInt64 42)] = combine (map name (tuple_columns person_schema true)) vs
    /\ map fst [("id"%string, VInt64 42)] = map name (tuple_columns person_schema true)
    /\ column_count [("id"%string, VInt64 42)] = tuple_count person_schema true.
Proof.
  apply (read_tuple_columns person_schema true [MBinary key_tuple_42]
           [("id"%string, VInt64 42)] []).
  - split; [split; simpl; lia | reflexivity].
  - reflexivity.
Defined.

Lemma write_read_round_trip_witness :
  exists no_value data res,
    write_tuple person_schema person_key false []
    = (Ok tt, [] ++ [MBitset no_value; MBinary data])
    /\ read_tuple person_schema false (MBinary data :: []) = (Ok res, [])
    /\ forall col, In col (tuple_columns person_schema false) ->
         (column_ordinal person_key (name col) < 0 ->
          tuple_get_name res (name col) tt = (Ok VEmpty, tt))
         /\ (0 <= column_ordinal person_key (name col) ->
             exists v, tuple_get_name person_key (name col) tt = (Ok v, tt)
                       /\ tuple_get_name res (name col) tt = (Ok v, tt)).
Proof.
  apply (write_read_round_trip person_schema person_key false [] []).
  - split; simpl; lia.
  - reflexivity.
Defined.

Lemma no_value_bitset_correct_witness :
  exists col,
    columns person_schema !! Z.to_nat 1 = Some col
    /\ (bitset_test [2] 1 = true <-> column_ordinal person_key (name col) < 0)
    /\ (bitset_test [2] 1 = true
        -> [Some (encode_le 8 42); None] !! Z.to_nat 1 = Some None)
    /\ (bitset_test [2] 1 = false
        -> exists bs, [Some (encode_le 8 42); None] !! Z.to_nat 1 = Some (Some bs)).
Proof.
  apply (no_value_bitset_correct person_schema person_key false (bitset_new 1)
           [Some (encode_le 8 42); None] [2] 1).
  - intros k. apply bitset_new_test.
  - change (tuple_count person_schema false) with 2. simpl. lia.
  - reflexivity.
  - change (tuple_count person_schema false) with 2. lia.
Defined.

Lemma read_tuple_key_merges_key_witness :
  exists data vs p',
    [MBinary value_tuple_bob] = MBinary data :: []
    /\ read_columns (drop (Z.to_nat (key_column_count person_schema)) (columns person_schema))
         (parser_new (Z.of_nat (length (columns person_schema))
                      - key_column_count person_schema) data)
       = (Ok vs, p')
    /\ (forall c,
          In c (take (Z.to_nat (key_column_count person_schema)) (columns person_schema)) ->
          exists v, tuple_get_name person_key (name c) tt = (Ok v, tt)
                    /\ tuple_get_name [("id"%string, VInt64 42); ("name"%string, VString "bob")]
                         (name c) tt = (Ok v, tt))
    /\ Forall2
         (fun c v =>
            tuple_get_name [("id"%string, VInt64 42); ("name"%string, VString "bob")]
              (name c) tt = (Ok v, tt))
         (drop (Z.to_nat (key_column_count person_schema)) (columns person_schema)) vs
    /\ map fst [("id"%string, VInt64 42); ("name"%string, VString "bob")]
       = map name (columns person_schema).
Proof.
  apply (read_tuple_key_merges_key person_schema person_key [MBinary value_tuple_bob]
           [("id"%string, VInt64 42); ("name"%string, VString "bob")] []).
  - split; [split; simpl; lia | reflexivity].
  - reflexivity.
Defined.

Lemma load_schema_async_witness :
  process_response get_schema_by_version
    (mk_handler (load_schema_reader_func schema_read_columns) (UserCallback 0))
    [MMap [person_schema_kv]] fresh_world
  = (Ok tt,
     mk_world
       (fold_left (fun t s => snd (add_schema s t)) [person_schema] (w_table fresh_world))
       (w_sent fresh_world) (w_pending fresh_world)
       (w_calls fresh_world ++ [(0%nat, Ok (PSchema (last [person_schema])))])).
Proof.
  apply (load_schema_async_spec schema_read_columns get_schema_by_version
           (UserCallback 0) 0 fresh_world [] [person_schema_kv] [person_schema]).
  - discriminate.
  - constructor; [reflexivity | constructor].
Defined.

Lemma get_latest_schema_async_witness :
  exists s,
    m_schemas (w_table seeded_world) !! m_latest_schema_version (w_table seeded_world)
    = Some (Some s)
    /\ get_latest_schema_async schema_read_columns get_schema_by_version
         (UserCallback 0) seeded_world
       = invoke get_schema_by_version (UserCallback 0) (Ok (PSchema (Some s))) seeded_world.
Proof.
  apply (get_latest_schema_async_spec schema_read_columns get_schema_by_version
           (UserCallback 0) seeded_world).
  - apply reachable_add; [apply reachable_new | simpl; lia].
  - simpl. lia.
Defined.

Lemma get_and_readers_merge_key_witness :
  get_and_upsert_reader_func get_schema_by_version person_record
    (seeded_table, [MInt32 1; MBinary value_tuple_bob; MNil])
  = (Ok (POptTuple (Some [("id"%string, VInt64 42); ("name"%string, VString "bob")])),
     (seeded_table, [MNil]))
  /\ (forall c,
        In c (take (Z.to_nat (key_column_count person_schema)) (columns person_schema)) ->
        exists v, tuple_get_name person_record (name c) tt = (Ok v, tt)
                  /\ tuple_get_name
                       [("id"%string, VInt64 42); ("name"%string, VString "bob")]
                       (name c) tt = (Ok v, tt))
  /\ (exists res,
        get_and_upsert_reader_func get_schema_by_version person_record
          (seeded_table, [MInt32 1; MBinary value_tuple_bob; MNil])
        = (Ok (POptTuple (Some res)), (seeded_table, [MNil]))
        /\ map fst res = map name (columns person_schema)
        /\ forall c,
             In c (take (Z.to_nat (key_column_count person_schema))
                     (columns person_schema)) ->
             exists v, tuple_get_name person_record (name c) tt = (Ok v, tt)
                       /\ tuple_get_name res (name c) tt = (Ok v, tt)).
Proof.
  pose proof (get_and_readers_merge_key get_schema_by_version person_record
                (get_and_upsert_reader_func get_schema_by_version person_record)
                seeded_table [MInt32 1; MBinary value_tuple_bob; MNil] (Some person_schema)
                seeded_table [MBinary value_tuple_bob; MNil]
                (or_introl eq_refl) eq_refl) as (Hrun & Hkeys & Hreturns).
  assert (Hwf : schema_wf person_schema)
    by (split; [split; simpl; lia | reflexivity]).
  split; [exact Hrun|]. split.
  - apply (Hkeys Hwf _ (seeded_table, [MNil])). reflexivity.
  - apply (Hreturns Hwf value_tuple_bob [MNil] eq_refl).
    + intros c [<-|[]]. discriminate.
    + repeat constructor.
Defined.

Lemma read_tuples_null_schema_witness :
  read_tuples None true [MInt32 1; MBinary key_tuple_42]
  = (Ok [], [MInt32 1; MBinary key_tuple_42])
  /\ remove_all_reader_func get_schema_by_version
       (seeded_table, [MNil; MInt32 1; MBinary key_tuple_42])
     = (Ok (PTuples []), (seeded_table, [MInt32 1; MBinary key_tuple_42])).
Proof.
  destruct (read_tuples_null_schema get_schema_by_version true 0 seeded_world
              [MNil; MInt32 1; MBinary key_tuple_42] seeded_table
              [MInt32 1; MBinary key_tuple_42] eq_refl)
    as (H1 & _ & _ & _ & H5 & _).
  split; [exact H1 | exact H5].
Defined.


(** * Further properties of the codec *)

Lemma for_loop_first_throw {St} (body : Z -> M St unit) n i s m s1 e s2 :
  (m < n)%nat ->
  for_loop m i body s = (Ok tt, s1) ->
  body (i + Z.of_nat m) s1 = (Throw e, s2) ->
  for_loop n i body s = (Throw e, s2).
Proof.
  intros Hm Hrun Hthrow.
  replace n with (m + S (n - m - 1))%nat by lia.
  rewrite for_loop_split. rewrite (bind_ok _ _ _ _ _ Hrun).
  cbn [for_loop]. now rewrite (bind_throw _ _ _ _ _ Hthrow).
Qed.

(** ** What [pack_tuple] takes from the record *)

Lemma claim_column_same typ i1 r1 i2 r2 b v :
  (forall St (s : St), tuple_get r1 i1 s = (Ok v, s)) ->
  (forall St (s : St), tuple_get r2 i2 s = (Ok v, s)) ->
  claim_column typ i1 r1 b = claim_column typ i2 r2 b.
Proof.
  intros H1 H2. destruct typ; simpl;
    unfold get_int8, get_int16, get_int32, get_int64, get_float, get_double,
      get_uuid, get_string, get_binary, bind;
    rewrite ?H1, ?H2; reflexivity.
Qed.

Lemma append_column_same typ i1 r1 i2 r2 b v :
  (forall St (s : St), tuple_get r1 i1 s = (Ok v, s)) ->
  (forall St (s : St), tuple_get r2 i2 s = (Ok v, s)) ->
  append_column typ i1 r1 b = append_column typ i2 r2 b.
Proof.
  intros H1 H2. destruct typ; simpl;
    unfold get_int8, get_int16, get_int32, get_int64, get_float, get_double,
      get_uuid, get_string, get_binary, bind;
    rewrite ?H1, ?H2; reflexivity.
Qed.

Lemma claim_loop_same sch r1 r2 j s :
  (forall col, columns sch !! Z.to_nat j = Some col ->
               tuple_lookup r1 (name col) = tuple_lookup r2 (name col)) ->
  claim_loop sch r1 j s = claim_loop sch r2 j s.
Proof.
  intros H. unfold claim_loop, bind.
  destruct (at_index (columns sch) j s) as [[col|e] s1] eqn:Hat; [|reflexivity].
  apply at_index_ok_inv in Hat as (_ & Hcol & ->). specialize (H col Hcol).
  destruct s as [b nv].
  destruct (tuple_lookup r1 (name col)) as [v|] eqn:E1; symmetry in H.
  - destruct (column_ordinal_some _ _ _ E1) as [Ho1 Hg1].
    destruct (column_ordinal_some _ _ _ H) as [Ho2 Hg2].
    replace (0 <=? column_ordinal r1 (name col)) with true by lia.
    replace (0 <=? column_ordinal r2 (name col)) with true by lia.
    rewrite !on_fst_eq. now rewrite (claim_column_same _ _ _ _ _ b v Hg1 Hg2).
  - now rewrite (column_ordinal_none _ _ E1), (column_ordinal_none _ _ H).
Qed.

Lemma append_loop_same sch r1 r2 j s :
  (forall col, columns sch !! Z.to_nat j = Some col ->
               tuple_lookup r1 (name col) = tuple_lookup r2 (name col)) ->
  append_loop sch r1 j s = append_loop sch r2 j s.
Proof.
  intros H. unfold append_loop, bind at 1 3.
  destruct (at_index (columns sch) j s) as [[col|e] s1] eqn:Hat; [|reflexivity].
  apply at_index_ok_inv in Hat as (_ & Hcol & ->). specialize (H col Hcol).
  destruct s as [b nv].
  destruct (tuple_lookup r1 (name col)) as [v|] eqn:E1; symmetry in H.
  - destruct (column_ordinal_some _ _ _ E1) as [Ho1 Hg1].
    destruct (column_ordinal_some _ _ _ H) as [Ho2 Hg2].
    replace (0 <=? column_ordinal r1 (name col)) with true by lia.
    replace (0 <=? column_ordinal r2 (name col)) with true by lia.
    rewrite !on_fst_eq. now rewrite (append_column_same _ _ _ _ _ b v Hg1 Hg2).
  - now rewrite (column_ordinal_none _ _ E1), (column_ordinal_none _ _ H).
Qed.

Lemma tuple_columns_lookup sch key_only j col :
  0 <= j < 0 + Z.of_nat (Z.to_nat (tuple_count sch key_only)) ->
  columns sch !! Z.to_nat j = Some col ->
  In col (tuple_columns sch key_only).
Proof.
  intros Hj Hcol. apply list_elem_of_In, list_elem_of_lookup. exists (Z.to_nat j).
  unfold tuple_columns. now rewrite lookup_take_lt by lia.
Qed.

Lemma bind_ext {St A B} (c1 c2 : M St A) (k1 k2 : A -> M St B) s :
  c1 s = c2 s -> (forall a s', k1 a s' = k2 a s') -> bind c1 k1 s = bind c2 k2 s.
Proof.
  intros Hc Hk. unfold bind. rewrite Hc.
  destruct (c2 s) as [[a|e] s']; [apply Hk | reflexivity].
Qed.

Lemma pack_tuple_same sch r1 r2 key_only nv :
  (forall col, In col (tuple_columns sch key_only) ->
               tuple_lookup r1 (name col) = tuple_lookup r2 (name col)) ->
  pack_tuple sch r1 key_only nv = pack_tuple sch r2 key_only nv.
Proof.
  intros H. rewrite !pack_tuple_eq.
  match goal with
  | |- (let '(_, _) := ?a in _) = (let '(_, _) := ?b in _) =>
      replace a with b; [reflexivity|]
  end.
  apply bind_ext; [reflexivity|]. intros _ s1.
  apply bind_ext.
  { apply for_loop_ext. intros j t Hj. apply claim_loop_same. intros col Hcol.
    symmetry. apply H. eapply tuple_columns_lookup; eauto. }
  intros _ s2. apply bind_ext; [reflexivity|]. intros _ s3.
  apply bind_ext; [|reflexivity].
  apply for_loop_ext. intros j t Hj. apply append_loop_same. intros col Hcol.
  symmetry. apply H. eapply tuple_columns_lookup; eauto.
Qed.

(** X1.  [write_tuple] takes from the record only what it has under the
    names of the columns written: two records that have the same value, or
    both none, for each of these columns give the same result, whatever the
    order and the case of their field names and whatever other fields they
    have.  With [key_only] the columns written are the key columns. *)
Theorem write_tuple_same_fields sch r1 r2 key_only w :
  (forall col, In col (tuple_columns sch key_only) ->
               tuple_lookup r1 (name col) = tuple_lookup r2 (name col)) ->
  write_tuple sch r1 key_only w = write_tuple sch r2 key_only w.
Proof.
  intros H. unfold write_tuple. now rewrite (pack_tuple_same _ _ _ _ _ H).
Qed.

(** ** The exceptions of [write_tuple] *)

Lemma claim_column_error typ idx r v b e :
  (forall St (s : St), tuple_get r idx s = (Ok v, s)) ->
  value_error typ v = Some e ->
  claim_column typ idx r b = (Throw e, b).
Proof.
  intros Hget He. column_cases Hget typ; destruct v; simpl in He;
    try discriminate; now injection He as <-.
Qed.

Lemma claim_column_no_error typ idx r v b :
  (forall St (s : St), tuple_get r idx s = (Ok v, s)) ->
  value_error typ v = None ->
  exists b', claim_column typ idx r b = (Ok tt, b').
Proof.
  intros Hget He. column_cases Hget typ; destruct v; simpl in He;
    try discriminate; eexists; reflexivity.
Qed.

Lemma claim_loop_no_error sch r j b nv col :
  0 <= j -> columns sch !! Z.to_nat j = Some col -> column_error r col = None ->
  exists b', claim_loop sch r j (b, nv) = (Ok tt, (b', nv)).
Proof.
  intros Hj Hcol He. unfold claim_loop, column_error in *.
  rewrite (bind_ok _ _ _ _ _ (at_index_lookup _ _ _ _ Hj Hcol)).
  destruct (tuple_lookup r (name col)) as [v|] eqn:El.
  - destruct (column_ordinal_some _ _ _ El) as [Ho Hget].
    replace (0 <=? column_ordinal r (name col)) with true by lia.
    destruct (claim_column_no_error (type col) _ r v b Hget He) as [b' Hb].
    exists b'. now rewrite on_fst_eq, Hb.
  - rewrite (column_ordinal_none _ _ El). simpl. rewrite on_fst_eq. simpl.
    eexists. reflexivity.
Qed.

Lemma claim_loop_error sch r j b nv col e :
  0 <= j -> columns sch !! Z.to_nat j = Some col -> column_error r col = Some e ->
  claim_loop sch r j (b, nv) = (Throw e, (b, nv)).
Proof.
  intros Hj Hcol He. unfold claim_loop, column_error in *.
  rewrite (bind_ok _ _ _ _ _ (at_index_lookup _ _ _ _ Hj Hcol)).
  destruct (tuple_lookup r (name col)) as [v|] eqn:El; [|discriminate].
  destruct (column_ordinal_some _ _ _ El) as [Ho Hget].
  replace (0 <=? column_ordinal r (name col)) with true by lia.
  now rewrite on_fst_eq, (claim_column_error _ _ _ _ _ _ Hget He).
Qed.

Lemma pack_tuple_first_error sch r key_only nv i col e :
  (i < Z.to_nat (tuple_count sch key_only))%nat ->
  columns sch !! i = Some col ->
  (forall j c, (j < i)%nat -> columns sch !! j = Some c -> column_error r c = None) ->
  column_error r col = Some e ->
  pack_tuple sch r key_only nv = (Throw e, nv).
Proof.
  intros Hi Hcol Hbefore He.
  destruct (for_loop_total (fun _ s => snd s = nv) (claim_loop sch r) i 0
              (builder_new (tuple_count sch key_only), nv) eq_refl)
    as ([b1 nv1] & Hrun & Hnv).
  { intros j [b nv'] Hj Hs. simpl in Hs. subst nv'.
    destruct (lookup_lt_is_Some_2 (columns sch) (Z.to_nat j)) as [c Hc].
    { apply lookup_lt_Some in Hcol. lia. }
    destruct (claim_loop_no_error sch r j b nv c) as [b' Hb'];
      [lia | exact Hc | apply (Hbefore (Z.to_nat j)); [lia | exact Hc] |].
    exists (b', nv). now split. }
  simpl in Hnv. subst nv1.
  assert (Hbody : claim_loop sch r (0 + Z.of_nat i) (b1, nv) = (Throw e, (b1, nv))).
  { apply (claim_loop_error sch r _ b1 nv col e); [lia | | exact He].
    now replace (Z.to_nat (0 + Z.of_nat i)) with i by lia. }
  pose proof (for_loop_first_throw (claim_loop sch r)
                (Z.to_nat (tuple_count sch key_only)) 0 _ i _ e (b1, nv) Hi Hrun Hbody)
    as Hthrow.
  rewrite pack_tuple_eq. unfold bind at 1. rewrite on_fst_eq.
  cbn [fst snd builder_start modify builder_new b_count].
  fold (builder_new (tuple_count sch key_only)).
  rewrite (bind_throw _ _ _ _ _ Hthrow). reflexivity.
Qed.

(** X2.  [write_tuple] throws for the first column written, in schema order,
    for which the record has a field that cannot be written: "type not
    supported" with the id of the type when the column is of a type outside
    the nine, a type mismatch when the field holds a value of another type
    than the column.  Nothing has been written to the writer then. *)
Theorem write_tuple_first_error sch r key_only w i col e :
  (i < Z.to_nat (tuple_count sch key_only))%nat ->
  columns sch !! i = Some col ->
  (forall j c, (j < i)%nat -> columns sch !! j = Some c -> column_error r c = None) ->
  column_error r col = Some e ->
  write_tuple sch r key_only w = (Throw e, w).
Proof.
  intros Hi Hcol Hbefore He. unfold write_tuple.
  now rewrite (pack_tuple_first_error _ _ _ _ _ _ _ Hi Hcol Hbefore He).
Qed.

(** ** The frame of [write_tuple] and [write_tuples] *)

Lemma write_tuple_inv sch r key_only w w' :
  write_tuple sch r key_only w = (Ok tt, w') ->
  exists data nv,
    pack_tuple sch r key_only
      (bitset_new (bytes_for_bits
         (if key_only then key_column_count sch else Z.of_nat (length (columns sch)))))
    = (Ok data, nv)
    /\ w' = w ++ [MBitset nv; MBinary data].
Proof.
  unfold write_tuple. destruct (pack_tuple _ _ _ _) as [[data|e] nv]; [|discriminate].
  unfold bind, write_bitset, write_binary, write, modify. intros H.
  injection H as <-. exists data, nv. split; [reflexivity | now rewrite <- app_assoc].
Qed.

Lemma pack_tuple_frame sch r key_only data nv :
  schema_counts sch ->
  pack_tuple sch r key_only (bitset_new (bytes_for_bits (tuple_count sch key_only)))
  = (Ok data, nv) ->
  data = map (field_of r) (tuple_columns sch key_only)
  /\ Z.of_nat (length nv) = bytes_for_bits (tuple_count sch key_only)
  /\ (forall k, 0 <= k ->
        bitset_test nv k
        = (k <? tuple_count sch key_only) && absent_at r (columns sch) k).
Proof.
  intros Hc Hpack. destruct (tuple_count_wf sch key_only Hc) as [_ Hrange].
  pose proof (bytes_for_bits_wide (tuple_count sch key_only) ltac:(lia)) as Hw.
  destruct (pack_tuple_ok _ _ _ _ _ _ Hw Hpack) as (b2 & -> & Hp).
  unfold packed_upto in Hp. cbn [fst snd] in Hp.
  rewrite Nat2Z.id, Z2Nat.id in Hp by lia.
  destruct Hp as (Hel & _ & _ & Hlen & Hbits).
  repeat split.
  - exact Hel.
  - rewrite Hlen. apply bitset_new_length. unfold bytes_for_bits.
    apply Z.div_pos; lia.
  - intros k Hk. now rewrite (Hbits k Hk), bitset_new_test.
Qed.

(** X3.  For a schema whose key columns are a prefix of its columns, a
    [write_tuple] that returns has appended two objects to the frame: the
    no-value bitset, of [ceil(count/8)] bytes, in which bit [k] is set exactly
    for the columns [k < count] that the record has no field for, the bits
    from [count] on being clear; and the binary tuple, which has one field for
    each of the [count] columns, in schema order, the payload of the value
    the record has under the name of the column, whatever the order of the
    fields of the record. *)
Theorem write_tuple_frame sch r key_only w w' :
  schema_counts sch ->
  write_tuple sch r key_only w = (Ok tt, w') ->
  exists no_value,
    w' = w ++ [MBitset no_value;
               MBinary (map (field_of r) (tuple_columns sch key_only))]
    /\ Z.of_nat (length no_value) = bytes_for_bits (tuple_count sch key_only)
    /\ (forall k, 0 <= k ->
          bitset_test no_value k
          = (k <? tuple_count sch key_only) && absent_at r (columns sch) k).
Proof.
  intros Hc Hw. apply write_tuple_inv in Hw as (data & nv & Hpack & ->).
  destruct (tuple_count_wf sch key_only Hc) as [Hcnt _]. rewrite <- Hcnt in Hpack.
  destruct (pack_tuple_frame _ _ _ _ _ Hc Hpack) as (-> & Hlen & Hbits).
  now exists nv.
Qed.

Lemma write_tuple_fits sch r key_only w :
  schema_counts sch ->
  record_fits sch r key_only = true ->
  exists nv, write_tuple sch r key_only w
             = (Ok tt, w ++ tuple_payload sch key_only (nv, r)).
Proof.
  intros Hc Hfit. destruct (tuple_count_wf sch key_only Hc) as [Hcnt _].
  destruct (pack_tuple_total sch r key_only
              (bitset_new (bytes_for_bits (tuple_count sch key_only))) Hc Hfit)
    as (data & nv & Hpack).
  destruct (pack_tuple_frame _ _ _ _ _ Hc Hpack) as (-> & _).
  exists nv. rewrite Hcnt in Hpack. now apply write_tuple_packed.
Qed.

Lemma for_each_write_tuple sch key_only rs :
  schema_counts sch ->
  Forall (fun r => record_fits sch r key_only = true) rs ->
  forall w, exists nvs,
    length nvs = length rs
    /\ for_each rs (fun tuple => write_tuple sch tuple key_only) w
       = (Ok tt, w ++ flat_map (tuple_payload sch key_only) (combine nvs rs)).
Proof.
  intros Hc Hall. induction Hall as [|r rs Hr _ IH]; intros w.
  - exists []. split; [reflexivity|]. simpl. now rewrite app_nil_r.
  - destruct (write_tuple_fits sch r key_only w Hc Hr) as [nv Hw].
    destruct (IH (w ++ tuple_payload sch key_only (nv, r))) as (nvs & Hlen & Hrest).
    exists (nv :: nvs). split; [simpl; now rewrite Hlen|].
    cbn [for_each]. rewrite (bind_ok _ _ _ _ _ Hw), Hrest.
    cbn [combine flat_map]. now rewrite <- app_assoc.
Qed.

(** X4.  For records whose fields are of the types of the columns written,
    [write_tuples] appends the number of records as an int32 and then, for
    each record in order, what [write_tuple] writes for it: its no-value
    bitset and its binary tuple. *)
Theorem write_tuples_frame sch rs key_only w :
  schema_counts sch ->
  Forall (fun r => record_fits sch r key_only = true) rs ->
  exists nvs,
    length nvs = length rs
    /\ write_tuples sch rs key_only w
       = (Ok tt,
          w ++ MInt32 (to_int32 (Z.of_nat (length rs)))
               :: flat_map (tuple_payload sch key_only) (combine nvs rs)).
Proof.
  intros Hc Hall.
  destruct (for_each_write_tuple sch key_only rs Hc Hall
              (w ++ [MInt32 (to_int32 (Z.of_nat (length rs)))])) as (nvs & Hlen & Hrun).
  exists nvs. split; [exact Hlen|].
  unfold write_tuples, bind at 1, write, modify. rewrite Hrun.
  now rewrite <- app_assoc.
Qed.

(** * Further properties of the readers *)

Lemma read_tuple_eq sch key_only d rd :
  read_tuple sch key_only (MBinary d :: rd)
  = match for_loop (Z.to_nat (tuple_count sch key_only)) 0
            (fill_loop (columns sch) (fun c => read_next_column (type c)))
            (tuple_new (tuple_count sch key_only), parser_new (tuple_count sch key_only) d)
    with
    | (Ok _, (res, _)) => (Ok res, rd)
    | (Throw e, _) => (Throw e, rd)
    end.
Proof.
  unfold read_tuple, bind at 1, read_binary.
  change (fun i : Z => column <- at_index (columns sch) i;;
                       v <- on_snd (read_next_column (type column));;
                       on_fst (modify (fun res0 => tuple_set res0 (name column) v)))
    with (fill_loop (columns sch) (fun c => read_next_column (type c))).
  now destruct (for_loop _ _ _ _) as [[[]|e] [res p]].
Qed.

(** [read_tuple] takes one binary object from the reader and nothing else. *)
Lemma read_tuple_step sch key_only d rd :
  read_tuple sch key_only (MBinary d :: rd)
  = (fst (read_tuple sch key_only [MBinary d]), rd).
Proof.
  rewrite !read_tuple_eq.
  now destruct (for_loop _ _ _ _) as [[[]|e] [res p]].
Qed.

Lemma collect_read_tuple sch key_only ds ts rest :
  Forall2 (fun d t => fst (read_tuple sch key_only [MBinary d]) = Ok t) ds ts ->
  collect (length ds) (read_tuple sch key_only) (tuple_entries ds ++ rest) = (Ok ts, rest).
Proof.
  induction 1 as [|d t ds ts Hd _ IH]; [reflexivity|].
  cbn [length collect tuple_entries map app]. unfold bind at 1.
  rewrite read_tuple_step, Hd. unfold bind at 1.
  fold (tuple_entries ds). now rewrite IH.
Qed.

(** X5.  [read_tuples] reads the count and reserves room for that many
    records: on a negative count the [reserve] throws [std::length_error],
    the count having been taken from the reader and no tuple read; on a
    count that is not negative, followed by that many binary tuples, it
    returns the records [read_tuple] reads from the tuples, in order, and
    leaves the reader after the last of them. *)
Theorem read_tuples_entries sch key_only count rest :
  - 2 ^ 31 <= count < 2 ^ 31 ->
  (count < 0 ->
   read_tuples (Some sch) key_only (MInt32 count :: rest) = (Throw LengthError, rest))
  /\ (forall ds ts,
        Z.of_nat (length ds) = count ->
        Forall2 (fun d t => fst (read_tuple sch key_only [MBinary d]) = Ok t) ds ts ->
        read_tuples (Some sch) key_only (MInt32 count :: tuple_entries ds ++ rest)
        = (Ok ts, rest)).
Proof.
  intros Hc. split.
  - intros Hneg. unfold read_tuples, bind at 1, read_int32.
    apply bind_throw. rewrite reserve_int32 by exact Hc.
    now replace (count <? 0) with true by lia.
  - intros ds ts Hlen Hall. unfold read_tuples, bind at 1, read_int32.
    assert (Hres : reserve (to_size_t count) (tuple_entries ds ++ rest)
                   = (Ok tt, tuple_entries ds ++ rest)).
    { rewrite reserve_int32 by exact Hc. now replace (count <? 0) with false by lia. }
    rewrite (bind_ok _ _ _ _ _ Hres).
    replace (Z.to_nat count) with (length ds) by lia.
    now apply collect_read_tuple.
Qed.

Lemma collect_read_opt sch key_only es ts rest :
  Forall2 (opt_entry_reads sch key_only) es ts ->
  collect (length es)
    (exists_ <- read_bool ;;
     if negb exists_ then ret None
     else t <- read_tuple sch key_only ;; ret (Some t))
    (opt_entries es ++ rest)
  = (Ok ts, rest).
Proof.
  induction 1 as [|e t es ts He _ IH]; [reflexivity|].
  cbn [length collect]. unfold opt_entries in *. cbn [flat_map].
  rewrite <- app_assoc.
  destruct e as [d|], t as [t'|]; try contradiction; simpl in He.
  - cbn [opt_entry app]. unfold bind at 1. unfold bind at 1. cbn [read_bool negb].
    unfold bind at 1. rewrite read_tuple_step, He. cbn [ret].
    unfold bind at 1. now rewrite IH.
  - cbn [opt_entry app]. unfold bind at 1. unfold bind at 1. cbn [read_bool negb ret].
    unfold bind at 1. now rewrite IH.
Qed.

(** X6.  [read_tuples_opt] reads the count and reserves room for that many
    entries: on a negative count the [reserve] throws [std::length_error],
    the count having been taken from the reader and no entry read; on a
    count that is not negative, followed by that many entries, each a flag
    and then a binary tuple when the flag is set, it returns, in order, no
    record for an entry whose flag is clear, without reading a tuple for it,
    and the record [read_tuple] reads for an entry whose flag is set; the
    reader is left after the last entry. *)
Theorem read_tuples_opt_entries sch key_only count rest :
  - 2 ^ 31 <= count < 2 ^ 31 ->
  (count < 0 ->
   read_tuples_opt (Some sch) key_only (MInt32 count :: rest) = (Throw LengthError, rest))
  /\ (forall es ts,
        Z.of_nat (length es) = count ->
        Forall2 (opt_entry_reads sch key_only) es ts ->
        read_tuples_opt (Some sch) key_only (MInt32 count :: opt_entries es ++ rest)
        = (Ok ts, rest)).
Proof.
  intros Hc. split.
  - intros Hneg. unfold read_tuples_opt, bind at 1, read_int32.
    apply bind_throw. rewrite reserve_int32 by exact Hc.
    now replace (count <? 0) with true by lia.
  - intros es ts Hlen Hall. unfold read_tuples_opt, bind at 1, read_int32.
    assert (Hres : reserve (to_size_t count) (opt_entries es ++ rest)
                   = (Ok tt, opt_entries es ++ rest)).
    { rewrite reserve_int32 by exact Hc. now replace (count <? 0) with false by lia. }
    rewrite (bind_ok _ _ _ _ _ Hres).
    replace (Z.to_nat count) with (length es) by lia.
    now apply collect_read_opt.
Qed.

(** ** The exceptions of [read_tuple] *)

(** The key columns are merged until one is missing from the key. *)
Lemma merge_key_phase sch key : forall n j res p,
  0 <= j ->
  (Z.to_nat j + n <= Z.to_nat (key_column_count sch))%nat ->
  (Z.to_nat (key_column_count sch) <= length (columns sch))%nat ->
  (exists res',
     for_loop n j (merge_loop sch key) (res, p) = (Ok tt, (res', p))
     /\ forall m c, (Z.to_nat j <= m < Z.to_nat j + n)%nat ->
                    columns sch !! m = Some c -> tuple_lookup key (name c) <> None)
  \/ (exists s', for_loop n j (merge_loop sch key) (res, p) = (Throw FieldNotFound, s')).
Proof.
  induction n as [|n IH]; intros j res p Hj Hk Hlen.
  - left. exists res. split; [reflexivity | lia].
  - destruct (lookup_lt_is_Some_2 (columns sch) (Z.to_nat j)) as [c Hc]; [lia|].
    assert (Hbody : merge_loop sch key j (res, p)
                    = match tuple_lookup key (name c) with
                      | Some v => (Ok tt, (tuple_set res (name c) v, p))
                      | None => (Throw FieldNotFound, (res, p))
                      end).
    { rewrite merge_loop_key by (apply Z.ltb_lt; lia).
      unfold fill_loop. rewrite (bind_ok _ _ _ _ _ (at_index_lookup _ _ _ _ Hj Hc)).
      unfold bind. rewrite on_snd_eq, tuple_get_name_lookup.
      destruct (tuple_lookup key (name c)); cbn [fst snd]; [|reflexivity].
      now rewrite on_fst_eq. }
    cbn [for_loop].
    destruct (tuple_lookup key (name c)) as [v|] eqn:El.
    + rewrite (bind_ok _ _ _ _ _ Hbody).
      destruct (IH (j + 1) (tuple_set res (name c) v) p) as [(res' & Hrun & Hall)|Hthrow];
        try lia.
      * left. exists res'. split; [exact Hrun|].
        intros m c' Hm Hc'. destruct (decide (m = Z.to_nat j)) as [->|Hne].
        -- rewrite Hc in Hc'. injection Hc' as <-. now rewrite El.
        -- apply (Hall m c'); [lia | exact Hc'].
      * right. exact Hthrow.
    + right. rewrite (bind_throw _ _ _ _ _ Hbody). eexists. reflexivity.
Qed.

(** X7.  When the key record has no field for one of the key columns, the
    key-merging [read_tuple] throws the "field not found" of [key.get], after
    it has taken the binary tuple from the reader and whatever the tuple
    holds. *)
Theorem read_tuple_key_missing_key sch key data rest i col :
  schema_counts sch ->
  (i < Z.to_nat (key_column_count sch))%nat ->
  columns sch !! i = Some col ->
  tuple_lookup key (name col) = None ->
  read_tuple_key sch key (MBinary data :: rest) = (Throw FieldNotFound, rest).
Proof.
  intros [Hk Hl] Hi Hcol Hmiss. rewrite read_tuple_key_eq.
  rewrite to_int32_small by lia. rewrite Nat2Z.id.
  set (k := Z.to_nat (key_column_count sch)).
  replace (length (columns sch)) with (k + (length (columns sch) - k))%nat at 1 by lia.
  rewrite for_loop_split.
  destruct (merge_key_phase sch key k 0
              (tuple_new (Z.of_nat (length (columns sch))))
              (parser_new (Z.of_nat (length (columns sch)) - key_column_count sch) data))
    as [(res' & _ & Hall)|[s' Hthrow]]; try lia.
  - exfalso. apply (Hall i col); [lia | exact Hcol | exact Hmiss].
  - rewrite (bind_throw _ _ _ _ _ Hthrow). now destruct s'.
Qed.

(** X8.  For a well-formed schema and a binary tuple that has a field for
    each column read, every field present being in a column of one of the
    nine types, [read_tuple] returns: the record has the columns read, in
    schema order, and the empty value under every column whose field is
    absent, of whatever type the column is. *)
Theorem read_tuple_returns sch key_only data rest :
  schema_wf sch ->
  Forall2 (fun c f => field_readable (type c) f = true) (tuple_columns sch key_only) data ->
  exists res,
    read_tuple sch key_only (MBinary data :: rest) = (Ok res, rest)
    /\ map fst res = map name (tuple_columns sch key_only)
    /\ forall k c, tuple_columns sch key_only !! k = Some c ->
                   data !! k = Some None ->
                   tuple_get_name res (name c) tt = (Ok VEmpty, tt).
Proof.
  intros [Hc Hd] Hall. destruct (tuple_count_wf sch key_only Hc) as [_ Hrange].
  set (cs := tuple_columns sch key_only) in *.
  assert (Hlen : length cs = Z.to_nat (tuple_count sch key_only)).
  { unfold cs, tuple_columns. rewrite length_take. lia. }
  pose proof (Forall2_length _ _ _ Hall) as Hld.
  destruct (read_columns_readable data (tuple_count sch key_only) ltac:(lia) cs 0%nat)
    as (vs & p' & Hvs & Hempty).
  { intros k c Hk. destruct (Forall2_lookup_l _ _ _ _ _ Hall Hk) as (f & Hf & Hr).
    now exists f. }
  change (Z.of_nat 0) with 0 in Hvs.
  fold (parser_new (tuple_count sch key_only) data) in Hvs.
  pose proof (collect_values_length _ _ _ _ _ Hvs) as Hlvs.
  pose proof (fill_loop_run (columns sch) (fun c => read_next_column (type c)) cs 0
                (tuple_new (tuple_count sch key_only)) _ _ _ ltac:(lia)
                ltac:(rewrite Hlen; change (Z.to_nat 0) with 0%nat; unfold cs, tuple_columns;
                      now rewrite drop_0)
                Hvs) as Hloop.
  rewrite Hlen in Hloop.
  assert (Hdt : distinct_names cs = true).
  { unfold cs, tuple_columns.
    rewrite <- (take_drop (Z.to_nat (tuple_count sch key_only)) (columns sch)) in Hd.
    now apply distinct_names_app in Hd as (Hd & _). }
  rewrite set_columns_fresh in Hloop; [|exact Hlvs|exact Hdt|reflexivity].
  exists (combine (map name cs) vs). split; [|split].
  - rewrite read_tuple_eq. now rewrite Hloop.
  - now apply map_fst_combine_names.
  - intros k c Hk Hnone. rewrite tuple_get_name_lookup.
    now rewrite (lookup_combine_distinct cs vs k c VEmpty Hdt Hk (Hempty k c Hk Hnone)).
Qed.

Lemma read_next_column_unsupported id p bs p' :
  get_next p = (Ok (Some bs), p') ->
  read_next_column (OTHER id) p = (Throw (TypeNotSupported id), p').
Proof. intros Hget. unfold read_next_column, bind. now rewrite Hget. Qed.

(** X9.  [read_tuple] throws "type not supported", with the id of the type,
    at the first field that is present in a column of a type outside the
    nine, the fields before it being readable; the binary tuple has been
    taken from the reader. *)
Theorem read_tuple_unsupported sch key_only data rest i col id bs :
  Z.of_nat (length data) = tuple_count sch key_only ->
  columns sch !! i = Some col ->
  type col = OTHER id ->
  data !! i = Some (Some bs) ->
  (forall k c f, (k < i)%nat -> columns sch !! k = Some c -> data !! k = Some f ->
                 field_readable (type c) f = true) ->
  read_tuple sch key_only (MBinary data :: rest) = (Throw (TypeNotSupported id), rest).
Proof.
  intros Hlen Hcol Hty Hfield Hbefore.
  pose proof (lookup_lt_Some _ _ _ Hfield) as Hi.
  set (count := tuple_count sch key_only) in *.
  destruct (for_loop_total (fun j s => snd s = mk_parser count j data)
              (fill_loop (columns sch) (fun c => read_next_column (type c))) i 0
              (tuple_new count, parser_new count data) eq_refl)
    as ([res1 p1] & Hrun & Hp).
  { intros j [res p] Hj Hs. simpl in Hs. subst p.
    destruct (lookup_lt_is_Some_2 (columns sch) (Z.to_nat j)) as [c Hc].
    { apply lookup_lt_Some in Hcol. lia. }
    destruct (lookup_lt_is_Some_2 data (Z.to_nat j)) as [f Hf]; [lia|].
    destruct (read_next_column_readable (type c) (mk_parser count j data) f
                (mk_parser count (j + 1) data)) as (v & Hv & _).
    { pose proof (get_next_at count data (Z.to_nat j) f Hf Hlen) as Hg.
      rewrite Z2Nat.id in Hg by lia. exact Hg. }
    { apply (Hbefore (Z.to_nat j)); [lia | exact Hc | exact Hf]. }
    assert (Hj0 : 0 <= j) by lia.
    eexists. split.
    - unfold fill_loop. rewrite (bind_ok _ _ _ _ _ (at_index_lookup _ _ _ _ Hj0 Hc)).
      unfold bind. rewrite on_snd_eq, Hv. cbn [fst snd]. rewrite on_fst_eq. reflexivity.
    - reflexivity. }
  simpl in Hp. subst p1.
  assert (Hbody : fill_loop (columns sch) (fun c => read_next_column (type c))
                    (0 + Z.of_nat i) (res1, mk_parser count (0 + Z.of_nat i) data)
                  = (Throw (TypeNotSupported id),
                     (res1, mk_parser count (Z.of_nat i + 1) data))).
  { assert (Hi0 : 0 <= 0 + Z.of_nat i) by lia.
    assert (Hci : columns sch !! Z.to_nat (0 + Z.of_nat i) = Some col)
      by (now replace (Z.to_nat (0 + Z.of_nat i)) with i by lia).
    unfold fill_loop. rewrite (bind_ok _ _ _ _ _ (at_index_lookup _ _ _ _ Hi0 Hci)).
    unfold bind. rewrite on_snd_eq, Hty. change (0 + Z.of_nat i) with (Z.of_nat i).
    now rewrite (read_next_column_unsupported id _ bs _ (get_next_at _ _ _ _ Hfield Hlen)). }
  rewrite read_tuple_eq. fold count.
  rewrite (for_loop_first_throw _ (Z.to_nat count) 0 _ i _ _ _ ltac:(lia) Hrun Hbody).
  reflexivity.
Qed.

(** * Further properties of the operations *)

Lemma appends_write_tuple sch r key_only : appends (write_tuple sch r key_only).
Proof.
  intros w w' H. apply write_tuple_inv in H as (data & nv & _ & ->). eexists. reflexivity.
Qed.

Lemma appends_bind (c1 c2 : M writer unit) :
  appends c1 -> appends c2 -> appends (c1 ;;; c2).
Proof.
  intros H1 H2 w w' H. apply bind_ok_inv in H as ([] & w1 & Hc1 & Hc2).
  apply H1 in Hc1 as [i1 ->]. apply H2 in Hc2 as [i2 ->].
  exists (i1 ++ i2). now rewrite app_assoc.
Qed.

Lemma appends_write (x : msg_item) : appends (write x).
Proof. intros w w' H. injection H as <-. eexists. reflexivity. Qed.

Lemma appends_for_each sch key_only rs :
  appends (for_each rs (fun tuple => write_tuple sch tuple key_only)).
Proof.
  induction rs as [|r rs IH].
  - intros w w' H. injection H as <-. exists []. now rewrite app_nil_r.
  - cbn [for_each]. apply appends_bind; [apply appends_write_tuple | exact IH].
Qed.

Lemma appends_write_tuples sch rs key_only : appends (write_tuples sch rs key_only).
Proof.
  unfold write_tuples. apply appends_bind; [apply appends_write | apply appends_for_each].
Qed.

(** A request whose writer closure is the operation header followed by
    writes that only append. *)
Lemma perform_request_header op id sch rest rd callback w :
  appends rest ->
  match perform_request op (write_table_operation_header id sch ;;; rest) rd callback w with
  | (Ok _, w') =>
      exists op' payload rd',
        w' = mk_world (w_table w)
               (w_sent w ++ [(op', MUuid id :: MNil :: MInt32 (version sch) :: payload)])
               (w_pending w ++ [mk_handler rd' callback]) (w_calls w)
  | (Throw _, w') => w' = w
  end.
Proof.
  intros Happ. unfold perform_request.
  assert (Hh : write_table_operation_header id sch []
               = (Ok tt, [MUuid id; MNil; MInt32 (version sch)])) by reflexivity.
  rewrite (bind_ok _ _ _ _ _ Hh).
  destruct (rest _) as [[[]|e] frame] eqn:E; [|reflexivity].
  apply Happ in E as [payload ->]. now exists op, payload, rd.
Qed.

Lemma cache_reachable_version t :
  cache_reachable t ->
  forall v s, m_schemas t !! v = Some (Some s) -> version s = v.
Proof.
  induction 1 as [id | t s0 Ht IH Hs]; intros v s H.
  - discriminate.
  - simpl in H. destruct (decide (version s0 = v)) as [<-|Hne].
    + rewrite lookup_insert_eq in H. now injection H as <-.
    + rewrite lookup_insert_ne in H by exact Hne. now apply IH.
Qed.

Section operation_flows.

Variable schema_read : msgpack_object_kv -> result schema.
Variable get_schema : M (table_impl * reader) (option schema).

Lemma run_body_request body sch callback w :
  match run_body get_schema body sch callback w with
  | (Ok _, w') =>
      exists op payload rd,
        w' = mk_world (w_table w)
               (w_sent w ++ [(op, MUuid (m_id (w_table w)) :: MNil
                                    :: MInt32 (version sch) :: payload)])
               (w_pending w ++ [mk_handler rd callback]) (w_calls w)
  | (Throw _, w') => w' = w
  end.
Proof.
  unfold run_body, bind, get_state.
  destruct body; cbv beta iota zeta; unfold perform_request_wr;
    apply perform_request_header;
    repeat first [apply appends_write_tuples | apply appends_write_tuple
                 | apply appends_bind].
Qed.

Lemma get_latest_cached callback w s :
  m_schemas (w_table w) !! m_latest_schema_version (w_table w) = Some (Some s) ->
  0 <= m_latest_schema_version (w_table w) ->
  get_latest_schema_async schema_read get_schema callback w
  = invoke get_schema callback (Ok (PSchema (Some s))) w.
Proof.
  intros Hs Hv. unfold get_latest_schema_async, bind at 1, get_state.
  destruct (0 <=? m_latest_schema_version (w_table w)) eqn:E; [|lia].
  unfold bind, on_table, schemas_index. rewrite Hs. now destruct w.
Qed.

(** X10.  On a table whose cache holds schemas, each of the fifteen
    operations, called without a transaction, either sends exactly one
    request and leaves the callback with it, not invoked, or throws and
    leaves everything as it was.  The request starts with the operation
    header: the id of the table, nil for the transaction, and the latest
    schema version of the cache. *)
Theorem operation_with_cached_schema body callback w :
  cache_reachable (w_table w) ->
  0 <= m_latest_schema_version (w_table w) ->
  match call_operation schema_read get_schema None body callback w with
  | (Ok _, w') =>
      exists op payload rd,
        w' = mk_world (w_table w)
               (w_sent w ++ [(op, MUuid (m_id (w_table w)) :: MNil
                                    :: MInt32 (m_latest_schema_version (w_table w))
                                    :: payload)])
               (w_pending w ++ [mk_handler rd callback]) (w_calls w)
  | (Throw _, w') => w' = w
  end.
Proof.
  intros Hr Hv.
  destruct (proj2 (cache_reachable_inv _ Hr) Hv) as [s Hs].
  pose proof (cache_reachable_version _ Hr _ _ Hs) as Hver.
  assert (Hcall : call_operation schema_read get_schema None body callback w
                  = run_body get_schema body s callback w).
  { destruct body;
      apply (get_latest_cached (WithLatestSchema callback _) w s Hs Hv). }
  rewrite Hcall, <- Hver. apply run_body_request.
Qed.

Lemma get_latest_uncached callback w :
  m_latest_schema_version (w_table w) < 0 ->
  get_latest_schema_async schema_read get_schema callback w
  = load_schema_async schema_read callback w.
Proof.
  intros Hv. unfold get_latest_schema_async, bind at 1, get_state.
  destruct (0 <=? m_latest_schema_version (w_table w)) eqn:E; [lia | reflexivity].
Qed.

Lemma load_schema_reader_ok entries schemas t rest :
  entries <> [] ->
  Forall2 (fun o s => schema_read o = Ok s) entries schemas ->
  load_schema_reader_func schema_read (t, (MMap entries :: rest) : reader)
  = (Ok (PSchema (last schemas)),
     (fold_left (fun t s => snd (add_schema s t)) schemas t, rest)).
Proof.
  intros Hne Hall.
  pose proof (read_schemas_all schema_read _ _ Hall None t rest) as Hrs.
  unfold load_schema_reader_func. unfold bind at 1. rewrite on_snd_eq.
  cbn [read_map_size fst snd].
  destruct (Z.of_nat (length entries) =? 0) eqn:E.
  { destruct entries; [congruence | simpl in E; lia]. }
  unfold bind at 1. rewrite on_snd_eq. cbn [read_map_raw fst snd].
  unfold bind at 1. rewrite Hrs. unfold ret. now destruct (last schemas).
Qed.

(** X11.  On a table whose cache holds no schema, an operation called
    without a transaction sends only a SCHEMAS_GET request and waits.  When
    the response is a map of entries that all parse, the schemas are added to
    the cache and the operation goes on with the last schema of the map; when
    the map is empty, the callback of the user is invoked with "Schema not
    found" and nothing more is sent. *)
Theorem operation_without_schema body id w entries schemas sch rest w1 :
  m_latest_schema_version (w_table w) < 0 ->
  entries <> [] ->
  Forall2 (fun o s => schema_read o = Ok s) entries schemas ->
  last schemas = Some sch ->
  call_operation schema_read get_schema None body (UserCallback id) w
  = (Ok tt,
     mk_world (w_table w)
       (w_sent w ++ [(SCHEMAS_GET, [MUuid (m_id (w_table w)); MNil])])
       (w_pending w
        ++ [mk_handler (load_schema_reader_func schema_read)
              (WithLatestSchema (UserCallback id) body)])
       (w_calls w))
  /\ process_response get_schema
       (mk_handler (load_schema_reader_func schema_read)
          (WithLatestSchema (UserCallback id) body))
       (MMap entries :: rest) w1
     = run_body get_schema body sch (UserCallback id)
         (mk_world (fold_left (fun t s => snd (add_schema s t)) schemas (w_table w1))
            (w_sent w1) (w_pending w1) (w_calls w1))
  /\ process_response get_schema
       (mk_handler (load_schema_reader_func schema_read)
          (WithLatestSchema (UserCallback id) body))
       (MMap [] :: rest) w1
     = (Ok tt,
        mk_world (w_table w1) (w_sent w1) (w_pending w1)
          (w_calls w1 ++ [(id, Throw SchemaNotFound)])).
Proof.
  intros Hv Hne Hall Hlast. split; [|split].
  - assert (Hcall : call_operation schema_read get_schema None body (UserCallback id) w
                    = load_schema_async schema_read
                        (WithLatestSchema (UserCallback id) body) w).
    { destruct body;
        apply (get_latest_uncached (WithLatestSchema (UserCallback id) _) w Hv). }
    rewrite Hcall. reflexivity.
  - unfold process_response. cbn [h_read h_callback].
    rewrite (load_schema_reader_ok _ _ (w_table w1) rest Hne Hall), Hlast.
    reflexivity.
  - reflexivity.
Qed.

Lemma read_schemas_fail good schemas bad more e :
  Forall2 (fun o s => schema_read o = Ok s) good schemas ->
  schema_read bad = Throw e ->
  forall lst t rd,
    read_schemas schema_read (good ++ bad :: more) lst (t, rd)
    = (Throw e, (fold_left (fun t s => snd (add_schema s t)) schemas t, rd)).
Proof.
  intros Hall Hbad. induction Hall as [|o s good schemas Ho _ IH]; intros lst t rd.
  - cbn [app read_schemas]. unfold bind at 1, lift_result. now rewrite Hbad.
  - cbn [app read_schemas]. unfold bind at 1, lift_result. rewrite Ho.
    unfold bind at 1. rewrite on_fst_eq. cbn [fst snd].
    rewrite IH. reflexivity.
Qed.

(** X12.  When an entry of the schema map does not parse, the reader of
    [load_schema_async] throws the exception of [schema::read], which the
    callback is invoked with; the schemas of the entries before it have been
    added to the cache and stay there. *)
Theorem load_schema_partial_failure good schemas bad more e id rest w :
  Forall2 (fun o s => schema_read o = Ok s) good schemas ->
  schema_read bad = Throw e ->
  process_response get_schema
    (mk_handler (load_schema_reader_func schema_read) (UserCallback id))
    (MMap (good ++ bad :: more) :: rest) w
  = (Ok tt,
     mk_world (fold_left (fun t s => snd (add_schema s t)) schemas (w_table w))
       (w_sent w) (w_pending w) (w_calls w ++ [(id, Throw e)])).
Proof.
  intros Hall Hbad. rewrite process_response_user.
  assert (Hrun : load_schema_reader_func schema_read
                   (w_table w, (MMap (good ++ bad :: more) :: rest) : reader)
                 = (Throw e,
                    (fold_left (fun t s => snd (add_schema s t)) schemas (w_table w), rest))).
  { pose proof (read_schemas_fail _ _ _ more _ Hall Hbad None (w_table w) rest) as Hrs.
    unfold load_schema_reader_func. unfold bind at 1. rewrite on_snd_eq.
    cbn [read_map_size fst snd].
    destruct (Z.of_nat (length (good ++ bad :: more)) =? 0) eqn:E.
    { apply Z.eqb_eq in E. rewrite length_app in E. cbn [length] in E. lia. }
    unfold bind at 1. rewrite on_snd_eq. cbn [read_map_raw fst snd].
    unfold bind at 1. now rewrite Hrs. }
  rewrite Hrun. reflexivity.
Qed.

End operation_flows.

(** * The further statements at concrete inputs *)

Lemma write_tuple_same_fields_witness :
  write_tuple person_schema person_record false []
  = write_tuple person_schema person_record_shuffled false [].
Proof.
  apply (write_tuple_same_fields person_schema person_record person_record_shuffled
           false []).
  intros col Hin. change (tuple_columns person_schema false) with (columns person_schema) in Hin.
  simpl in Hin. destruct Hin as [<-|[<-|[]]]; reflexivity.
Defined.

Lemma write_tuple_first_error_witness :
  write_tuple priced_schema priced_record false [] = (Throw (TypeNotSupported 7), []).
Proof.
  apply (write_tuple_first_error priced_schema priced_record false [] 1
           (mk_column "price" (OTHER 7) true false) (TypeNotSupported 7)).
  - change (tuple_count priced_schema false) with 2. lia.
  - reflexivity.
  - intros j c Hj Hc. destruct j as [|j]; [|lia]. injection Hc as <-. reflexivity.
  - reflexivity.
Defined.

Lemma write_tuple_frame_witness :
  exists no_value,
    [MBitset [2]; MBinary [Some (encode_le 8 42); None]]
    = [] ++ [MBitset no_value;
             MBinary (map (field_of person_key) (tuple_columns person_schema false))]
    /\ Z.of_nat (length no_value) = bytes_for_bits (tuple_count person_schema false)
    /\ (forall k, 0 <= k ->
          bitset_test no_value k
          = (k <? tuple_count person_schema false)
            && absent_at person_key (columns person_schema) k).
Proof.
  apply (write_tuple_frame person_schema person_key false []
           [MBitset [2]; MBinary [Some (encode_le 8 42); None]]).
  - split; simpl; lia.
  - reflexivity.
Defined.

Lemma write_tuples_frame_witness :
  exists nvs,
    length nvs = length [person_key; person_record]
    /\ write_tuples person_schema [person_key; person_record] false []
       = (Ok tt,
          [] ++ MInt32 (to_int32 (Z.of_nat (length [person_key; person_record])))
                :: flat_map (tuple_payload person_schema false)
                     (combine nvs [person_key; person_record])).
Proof.
  apply (write_tuples_frame person_schema [person_key; person_record] false []).
  - split; simpl; lia.
  - repeat constructor.
Defined.

Lemma read_tuples_entries_witness :
  read_tuples (Some person_schema) true (MInt32 (-1) :: [MBinary key_tuple_42])
  = (Throw LengthError, [MBinary key_tuple_42])
  /\ read_tuples (Some person_schema) true
       (MInt32 2 :: tuple_entries [key_tuple_42; [Some (encode_le 8 7)]] ++ [MNil])
     = (Ok [[("id"%string, VInt64 42)]; [("id"%string, VInt64 7)]], [MNil]).
Proof.
  split.
  - apply (proj1 (read_tuples_entries person_schema true (-1) [MBinary key_tuple_42]
                    ltac:(lia))).
    lia.
  - apply (proj2 (read_tuples_entries person_schema true 2 [MNil] ltac:(lia))
             [key_tuple_42; [Some (encode_le 8 7)]]
             [[("id"%string, VInt64 42)]; [("id"%string, VInt64 7)]]).
    + reflexivity.
    + repeat constructor.
Defined.

Lemma read_tuples_opt_entries_witness :
  read_tuples_opt (Some person_schema) false (MInt32 (-2147483648) :: [MBool false])
  = (Throw LengthError, [MBool false])
  /\ read_tuples_opt (Some person_schema) false
       (MInt32 2
        :: opt_entries [None; Some [Some (encode_le 8 42); Some (encode_string "bob")]]
           ++ [MNil])
     = (Ok [None; Some [("id"%string, VInt64 42); ("name"%string, VString "bob")]], [MNil]).
Proof.
  split.
  - apply (proj1 (read_tuples_opt_entries person_schema false (-2147483648) [MBool false]
                    ltac:(lia))).
    lia.
  - apply (proj2 (read_tuples_opt_entries person_schema false 2 [MNil] ltac:(lia))
             [None; Some [Some (encode_le 8 42); Some (encode_string "bob")]]
             [None; Some [("id"%string, VInt64 42); ("name"%string, VString "bob")]]).
    + reflexivity.
    + constructor; [exact I|]. constructor; [reflexivity | constructor].
Defined.

Lemma read_tuple_key_missing_key_witness :
  read_tuple_key person_schema [("name"%string, VString "alice")]
    (MBinary value_tuple_bob :: [MNil])
  = (Throw FieldNotFound, [MNil]).
Proof.
  apply (read_tuple_key_missing_key person_schema [("name"%string, VString "alice")]
           value_tuple_bob [MNil] 0 (mk_column "id" INT64 false true)).
  - split; simpl; lia.
  - simpl. lia.
  - reflexivity.
  - reflexivity.
Defined.

Lemma read_tuple_returns_witness :
  exists res,
    read_tuple person_schema false (MBinary [Some (encode_le 8 42); None] :: [MNil])
    = (Ok res, [MNil])
    /\ map fst res = map name (tuple_columns person_schema false)
    /\ forall k c, tuple_columns person_schema false !! k = Some c ->
                   [Some (encode_le 8 42); None] !! k = Some None ->
                   tuple_get_name res (name c) tt = (Ok VEmpty, tt).
Proof.
  apply (read_tuple_returns person_schema false [Some (encode_le 8 42); None] [MNil]).
  - split; [split; simpl; lia | reflexivity].
  - repeat constructor.
Defined.

Lemma read_tuple_unsupported_witness :
  read_tuple priced_schema false (MBinary [Some (encode_le 8 42); Some [3]] :: [MNil])
  = (Throw (TypeNotSupported 7), [MNil]).
Proof.
  apply (read_tuple_unsupported priced_schema false [Some (encode_le 8 42); Some [3]]
           [MNil] 1 (mk_column "price" (OTHER 7) true false) 7 [3]).
  - reflexivity.
  - reflexivity.
  - reflexivity.
  - reflexivity.
  - intros k c f Hk Hc Hf. destruct k as [|k]; [|lia].
    injection Hc as <-. injection Hf as <-. reflexivity.
Defined.

Lemma operation_with_cached_schema_witness :
  match call_operation schema_read_columns get_schema_by_version None
          (GetBody person_key) (UserCallback 0) seeded_world with
  | (Ok _, w') =>
      exists op payload rd,
        w' = mk_world (w_table seeded_world)
               (w_sent seeded_world
                ++ [(op, MUuid (m_id (w_table seeded_world)) :: MNil
                           :: MInt32 (m_latest_schema_version (w_table seeded_world))
                           :: payload)])
               (w_pending seeded_world ++ [mk_handler rd (UserCallback 0)])
               (w_calls seeded_world)
  | (Throw _, w') => w' = seeded_world
  end.
Proof.
  apply (operation_with_cached_schema schema_read_columns get_schema_by_version
           (GetBody person_key) (UserCallback 0) seeded_world).
  - apply reachable_add; [apply reachable_new | simpl; lia].
  - simpl. lia.
Defined.

Lemma operation_without_schema_witness :
  process_response get_schema_by_version
    (mk_handler (load_schema_reader_func schema_read_columns)
       (WithLatestSchema (UserCallback 0) (GetBody person_key)))
    (MMap [person_schema_kv] :: []) fresh_world
  = run_body get_schema_by_version (GetBody person_key) person_schema (UserCallback 0)
      (mk_world
         (fold_left (fun t s => snd (add_schema s t)) [person_schema] (w_table fresh_world))
         (w_sent fresh_world) (w_pending fresh_world) (w_calls fresh_world)).
Proof.
  apply (operation_without_schema schema_read_columns get_schema_by_version
           (GetBody person_key) 0 fresh_world [person_schema_kv] [person_schema]
           person_schema [] fresh_world).
  - simpl. lia.
  - discriminate.
  - constructor; [reflexivity | constructor].
  - reflexivity.
Defined.

Lemma load_schema_partial_failure_witness :
  process_response get_schema_by_version
    (mk_handler (load_schema_reader_func schema_read_columns) (UserCallback 0))
    (MMap ([person_schema_kv] ++ broken_schema_kv :: []) :: []) fresh_world
  = (Ok tt,
     mk_world
       (fold_left (fun t s => snd (add_schema s t)) [person_schema] (w_table fresh_world))
       (w_sent fresh_world) (w_pending fresh_world)
       (w_calls fresh_world ++ [(0%nat, Throw ProtocolError)])).
Proof.
  apply (load_schema_partial_failure schema_read_columns get_schema_by_version
           [person_schema_kv] [person_schema] broken_schema_kv [] ProtocolError 0 []
           fresh_world).
  - constructor; [reflexivity | constructor].
  - reflexivity.
Defined.
